(** * CTFd/utils/lms.py: the safe attribute-expression evaluator

    A shallow embedding of [eval_attr_logic], [SafeEvalVisitor], [SafeAttrs]
    and [get_lms_ctfd_data_for_email], and the properties of the policy
    evaluator that follow from the code.

    Conventions of the embedding.
    - A Python [str] is a [string] whose characters are read as code points
      below 256.
    - Python values are the closed type [value]: [None], [bool], [int],
      [str], [list], [tuple] and [dict].  Floating-point, complex and bytes
      values are outside the embedding.  Values are immutable here: nothing
      in the evaluator writes to a list or dict held by an attribute.
    - Syntax trees are those of Python 3.9 and later: every literal is a
      [Constant] node and the index of a [Subscript] is an expression.
    - The host functions [ast.parse], [requests.get] and [urllib.parse.quote]
      are parameters of the development; [compile] and [eval] are modelled
      for the syntax that the allow-list lets through, as CPython 3.11
      performs them, started without [-O].
    - The interpreter's recursion limit is outside the embedding.  On a tree
      nested too deeply for the stack that is left, [SafeEvalVisitor.visit]
      raises [RecursionError] in the middle of the traversal, and so may a
      comparison of values nested that deeply; [eval_attr_logic] catches it
      like every other exception and returns [False].
      [SafeEvalVisitor.visit] below is the traversal on a stack that is deep
      enough for the tree.
    - Dict objects that the code copies or mutates live in a store indexed
      by references, so that aliasing between the caller's mapping and the
      evaluator's working copies is explicit. *)

From Stdlib Require Import ZArith String Ascii Bool.
From stdpp Require Import base option gmap strings list pretty.

Set Warnings "-register-all".
Open Scope Z_scope.

(** ** Exceptions *)

(** The exceptions that the module raises or meets.  Each of them derives
    from [Exception] in Python's class hierarchy. *)
Inductive exn : Type :=
| SyntaxError                       (* ast.parse: malformed source *)
| RecursionError                    (* ast.parse: nesting too deep *)
| MemoryError                       (* ast.parse: parser stack exhausted *)
| ValueError (msg : string)
| TypeError
| KeyError
| IndexError
| AttributeError
| NameError
| RequestException (msg : string)   (* requests.RequestException *)
| LMSUnavailable (msg : string)     (* class LMSUnavailable(Exception) *)
| Unmodelled                        (* see [eval_expr] *).

(** [issubclass(type(e), Exception)]. *)
Definition is_Exception (e : exn) : bool :=
  match e with
  | SyntaxError | RecursionError | MemoryError | ValueError _
  | TypeError | KeyError | IndexError | AttributeError | NameError
  | RequestException _ | LMSUnavailable _ | Unmodelled => true
  end.

(** The outcome of a Python computation: a returned value or a raised
    exception. *)
Inductive result (A : Type) : Type :=
| Return (a : A)
| Raise (e : exn).
Arguments Return {A} a.
Arguments Raise {A} e.

#[global] Instance result_ret : MRet result := @Return.
#[global] Instance result_bind : MBind result := λ A B f m,
  match m with
  | Return a => f a
  | Raise e => Raise e
  end.
#[global] Instance result_fmap : FMap result := λ A B f m,
  match m with
  | Return a => Return (f a)
  | Raise e => Raise e
  end.

(** ** Python values *)

Inductive value : Type :=
| VNone
| VBool (b : bool)
| VInt (n : Z)
| VStr (s : string)
| VList (items : list value)
| VTuple (items : list value)
| VDict (items : list (value * value)).

(** [bool] is a subclass of [int]: [True] is 1 and [False] is 0. *)
Definition as_int (v : value) : option Z :=
  match v with
  | VBool b => Some (Z.b2z b)
  | VInt n => Some n
  | _ => None
  end.

(** *** Strings *)

(** [str.isspace] on a single character, for code points below 256. *)
Definition isspace (c : ascii) : bool :=
  let n := N_of_ascii c in
  ((9 <=? n) && (n <=? 13) || (28 <=? n) && (n <=? 32)
   || (n =? 133) || (n =? 160))%N.

Fixpoint lstrip (s : string) : string :=
  match s with
  | EmptyString => EmptyString
  | String c s' => if isspace c then lstrip s' else s
  end.

Fixpoint rstrip (s : string) : string :=
  match s with
  | EmptyString => EmptyString
  | String c s' =>
      match rstrip s' with
      | EmptyString => if isspace c then EmptyString else String c EmptyString
      | r => String c r
      end
  end.

(** [s.strip()] without argument. *)
Definition strip (s : string) : string := rstrip (lstrip s).

(** [sub in s] for two strings. *)
Fixpoint str_contains (sub s : string) : bool :=
  String.prefix sub s ||
  match s with
  | EmptyString => false
  | String _ s' => str_contains sub s'
  end.

(** The characters of a string as one-character strings, which is what
    iterating over a [str] yields. *)
Fixpoint str_chars (s : string) : list string :=
  match s with
  | EmptyString => []
  | String c s' => String c EmptyString :: str_chars s'
  end.

(** *** Equality

    [a == b].  On the values of the embedding [==] never raises: operands of
    unrelated types compare unequal. *)

(** Lookup in an association list under a key equality; the stored key is
    the left operand of the comparison. *)
Fixpoint assoc_get {A : Type} (eqb : value → value → bool) (k : value)
    (d : list (value * A)) : option A :=
  match d with
  | [] => None
  | (k', v) :: d' => if eqb k' k then Some v else assoc_get eqb k d'
  end.

(** Element-wise equality of two sequences. *)
Fixpoint seq_eq (eqb : value → value → bool) (xs ys : list value) : bool :=
  match xs, ys with
  | [], [] => true
  | x :: xs', y :: ys' => eqb x y && seq_eq eqb xs' ys'
  | _, _ => false
  end.

(** Every item of [xs] has its key in [ys], bound to an equal value. *)
Fixpoint dict_all_in (eqb : value → value → bool)
    (xs ys : list (value * value)) : bool :=
  match xs with
  | [] => true
  | (k, v) :: xs' =>
      match assoc_get (λ k' _, eqb k k') k ys with
      | Some v' => eqb v v' && dict_all_in eqb xs' ys
      | None => false
      end
  end.

Fixpoint py_eq (a b : value) {struct a} : bool :=
  match a, b with
  | VNone, VNone => true
  | VBool x, (VBool _ | VInt _) => from_option (Z.eqb (Z.b2z x)) false (as_int b)
  | VInt x, (VBool _ | VInt _) => from_option (Z.eqb x) false (as_int b)
  | VStr x, VStr y => String.eqb x y
  | VList xs, VList ys => seq_eq py_eq xs ys
  | VTuple xs, VTuple ys => seq_eq py_eq xs ys
  | VDict xs, VDict ys =>
      (length xs =? length ys)%nat && dict_all_in py_eq xs ys
  | _, _ => false
  end.

(** [a != b] is the negation of [a == b] for every built-in type. *)
Definition py_ne (a b : value) : bool := negb (py_eq a b).

(** *** Ordering

    [a < b], [a <= b], [a > b], [a >= b].  Numbers order with numbers,
    strings with strings, lists with lists and tuples with tuples; every
    other pair of operand types raises [TypeError]. *)

Inductive richcmp : Type := Py_LT | Py_LE | Py_GT | Py_GE.

Definition cmp_holds (op : richcmp) (c : comparison) : bool :=
  match op, c with
  | Py_LT, Lt | Py_LE, (Lt | Eq) | Py_GT, Gt | Py_GE, (Gt | Eq) => true
  | _, _ => false
  end.

(** Lexicographic ordering of sequences: skip the common prefix of equal
    items, then order the first differing pair, or the lengths when one
    sequence is a prefix of the other. *)
Fixpoint seq_order (eqb : value → value → bool)
    (ord : value → value → result bool) (op : richcmp)
    (xs ys : list value) : result bool :=
  match xs, ys with
  | [], [] => Return (cmp_holds op Eq)
  | [], _ :: _ => Return (cmp_holds op Lt)
  | _ :: _, [] => Return (cmp_holds op Gt)
  | x :: xs', y :: ys' =>
      if eqb x y then seq_order eqb ord op xs' ys' else ord x y
  end.

Fixpoint py_order (op : richcmp) (a b : value) {struct a} : result bool :=
  match a, b with
  | VBool x, (VBool _ | VInt _) =>
      from_option (λ y, Return (cmp_holds op (Z.b2z x ?= y))) (Raise TypeError)
        (as_int b)
  | VInt x, (VBool _ | VInt _) =>
      from_option (λ y, Return (cmp_holds op (x ?= y))) (Raise TypeError)
        (as_int b)
  | VStr x, VStr y => Return (cmp_holds op (String.compare x y))
  | VList xs, VList ys => seq_order py_eq (py_order op) op xs ys
  | VTuple xs, VTuple ys => seq_order py_eq (py_order op) op xs ys
  | _, _ => Raise TypeError
  end.

(** *** Truthiness, hashing, membership and indexing *)

(** [bool(v)]. *)
Definition truthy (v : value) : bool :=
  match v with
  | VNone => false
  | VBool b => b
  | VInt n => negb (n =? 0)
  | VStr s => negb (String.eqb s EmptyString)
  | VList items | VTuple items => negb (bool_decide (items = []))
  | VDict items => negb (bool_decide (items = []))
  end.

(** [hash(v)] succeeds. *)
Fixpoint hashable (v : value) : bool :=
  match v with
  | VNone | VBool _ | VInt _ | VStr _ => true
  | VTuple items => forallb hashable items
  | VList _ | VDict _ => false
  end.

(** [x in container]. *)
Definition py_contains (container x : value) : result bool :=
  match container with
  | VList items | VTuple items => Return (existsb (λ e, py_eq e x) items)
  | VStr s =>
      match x with
      | VStr sub => Return (str_contains sub s)
      | _ => Raise TypeError
      end
  | VDict items =>
      if hashable x then Return (bool_decide (is_Some (assoc_get py_eq x items)))
      else Raise TypeError
  | VNone | VBool _ | VInt _ => Raise TypeError
  end.

(** The position selected by index [i] in a sequence of [len] items:
    negative indexes count from the end. *)
Definition seq_index (len : nat) (i : Z) : result nat :=
  let j := if i <? 0 then i + Z.of_nat len else i in
  if (0 <=? j) && (j <? Z.of_nat len) then Return (Z.to_nat j)
  else Raise IndexError.

(** [container[index]]. *)
Definition py_getitem (container index : value) : result value :=
  match container with
  | VList items | VTuple items =>
      match as_int index with
      | Some i =>
          j ← seq_index (length items) i;
          from_option Return (Raise IndexError) (items !! j)
      | None => Raise TypeError
      end
  | VStr s =>
      match as_int index with
      | Some i =>
          j ← seq_index (String.length s) i;
          from_option (λ c, Return (VStr c)) (Raise IndexError) (str_chars s !! j)
      | None => Raise TypeError
      end
  | VDict items =>
      if hashable index
      then from_option Return (Raise KeyError) (assoc_get py_eq index items)
      else Raise TypeError
  | VNone | VBool _ | VInt _ => Raise TypeError
  end.

(** [d[k] = v] on a dict under construction: an existing key keeps its
    position and takes the new value. *)
Fixpoint assoc_set (k v : value) (d : list (value * value))
    : list (value * value) :=
  match d with
  | [] => [(k, v)]
  | (k', v') :: d' =>
      if py_eq k' k then (k', v) :: d' else (k', v') :: assoc_set k v d'
  end.

Definition dict_setitem (d : list (value * value)) (k v : value)
    : result (list (value * value)) :=
  if hashable k then Return (assoc_set k v d) else Raise TypeError.

(** [d.update(m)], as performed by [{**m}] in a dict display. *)
Definition dict_update (d : list (value * value)) (m : value)
    : result (list (value * value)) :=
  match m with
  | VDict items => Return (foldl (λ acc kv, assoc_set kv.1 kv.2 acc) d items)
  | _ => Raise TypeError
  end.

(** ** Syntax trees

    The expression part of Python's abstract grammar.  The constructors
    carry the fields of the corresponding [ast] classes, in the order of
    their [_fields] ([lhs] and [rhs] are the fields [left] and [right]); a
    [Dict] node pairs each key with its value, a key of [None] standing for
    [**mapping]. *)

Module ast.

Inductive expr_context : Type := Load | Store | Del.

Inductive boolop : Type := And | Or.

Inductive operator : Type :=
| Add | Sub | Mult | MatMult | Div | Mod | Pow
| LShift | RShift | BitOr | BitXor | BitAnd | FloorDiv.

Inductive unaryop : Type := Invert | Not | UAdd | USub.

Inductive cmpop : Type :=
| Eq | NotEq | Lt | LtE | Gt | GtE | Is | IsNot | In | NotIn.

(** The payload of a [Constant] node. *)
Inductive constant : Type :=
| c_None
| c_bool (b : bool)
| c_int (n : Z)
| c_str (s : string).

(** Expression classes that have no constructor of their own below: the
    allow-list names none of them. *)
Inductive other_expr : Type :=
| NamedExpr | Lambda | IfExp | Set_ | ListComp | SetComp | DictComp
| GeneratorExp | Await | Yield | YieldFrom | Call | FormattedValue
| JoinedStr | Attribute | Starred | Slice.

Inductive expr : Type :=
| BoolOp (op : boolop) (values : list expr)
| BinOp (lhs : expr) (op : operator) (rhs : expr)
| UnaryOp (op : unaryop) (operand : expr)
| Dict (items : list (option expr * expr))
| Compare (lhs : expr) (ops : list cmpop) (comparators : list expr)
| Constant (c : constant)
| Subscript (v : expr) (slice : expr) (ctx : expr_context)
| Name (id : string) (ctx : expr_context)
| List (elts : list expr) (ctx : expr_context)
| Tuple (elts : list expr) (ctx : expr_context)
| Other (kind : other_expr) (children : list expr).

(** The root produced by [ast.parse(..., mode="eval")]. *)
Inductive mod_ : Type := Expression (body : expr).

(** [type(node).__name__] for each kind of node. *)

Definition expr_context_name (c : expr_context) : string :=
  match c with Load => "Load" | Store => "Store" | Del => "Del" end.

Definition boolop_name (op : boolop) : string :=
  match op with And => "And" | Or => "Or" end.

Definition operator_name (op : operator) : string :=
  match op with
  | Add => "Add" | Sub => "Sub" | Mult => "Mult" | MatMult => "MatMult"
  | Div => "Div" | Mod => "Mod" | Pow => "Pow" | LShift => "LShift"
  | RShift => "RShift" | BitOr => "BitOr" | BitXor => "BitXor"
  | BitAnd => "BitAnd" | FloorDiv => "FloorDiv"
  end.

Definition unaryop_name (op : unaryop) : string :=
  match op with
  | Invert => "Invert" | Not => "Not" | UAdd => "UAdd" | USub => "USub"
  end.

Definition cmpop_name (op : cmpop) : string :=
  match op with
  | Eq => "Eq" | NotEq => "NotEq" | Lt => "Lt" | LtE => "LtE" | Gt => "Gt"
  | GtE => "GtE" | Is => "Is" | IsNot => "IsNot" | In => "In"
  | NotIn => "NotIn"
  end.

Definition other_expr_name (k : other_expr) : string :=
  match k with
  | NamedExpr => "NamedExpr" | Lambda => "Lambda" | IfExp => "IfExp"
  | Set_ => "Set" | ListComp => "ListComp" | SetComp => "SetComp"
  | DictComp => "DictComp" | GeneratorExp => "GeneratorExp"
  | Await => "Await" | Yield => "Yield" | YieldFrom => "YieldFrom"
  | Call => "Call" | FormattedValue => "FormattedValue"
  | JoinedStr => "JoinedStr" | Attribute => "Attribute"
  | Starred => "Starred" | Slice => "Slice"
  end.

Definition expr_name (e : expr) : string :=
  match e with
  | BoolOp _ _ => "BoolOp"
  | BinOp _ _ _ => "BinOp"
  | UnaryOp _ _ => "UnaryOp"
  | Dict _ => "Dict"
  | Compare _ _ _ => "Compare"
  | Constant _ => "Constant"
  | Subscript _ _ _ => "Subscript"
  | Name _ _ => "Name"
  | List _ _ => "List"
  | Tuple _ _ => "Tuple"
  | Other k _ => other_expr_name k
  end.

Definition constant_value (c : constant) : value :=
  match c with
  | c_None => VNone
  | c_bool b => VBool b
  | c_int n => VInt n
  | c_str s => VStr s
  end.

End ast.

(** ** The store of dict objects

    [attributes], the copy handed to the visitor and the [SafeAttrs] object
    are three distinct dict objects; the store maps the reference of each to
    its current contents.  The log of [CTFd.utils.logging.log] is part of the
    state as well. *)

Definition ref : Type := positive.

Record state : Type := mkState {
  heap : gmap ref (gmap string value);
  owl_log : list exn
}.

(** Computations that read and write the store and may raise. *)
Definition M (A : Type) : Type := state → result A * state.

#[global] Instance M_ret : MRet M := λ A a st, (Return a, st).
#[global] Instance M_bind : MBind M := λ A B f m st,
  match m st with
  | (Return a, st') => f a st'
  | (Raise e, st') => (Raise e, st')
  end.

Definition raise {A : Type} (e : exn) : M A := λ st, (Raise e, st).

(** Lift a computation that does not touch the store. *)
Definition lift {A : Type} (r : result A) : M A := λ st, (r, st).

(** [try: body except Exception as e: handler(e)]. *)
Definition try_except {A : Type} (body : M A) (handler : exn → M A) : M A :=
  λ st,
    match body st with
    | (Return a, st') => (Return a, st')
    | (Raise e, st') =>
        if is_Exception e then handler e st' else (Raise e, st')
    end.

(** [log("owl", "Error evaluating LMS attribute expression: {err}", err=e)]. *)
Definition log (e : exn) : M unit :=
  λ st, (Return (), mkState (heap st) (owl_log st ++ [e])).

(** Allocate a new dict object with the given contents. *)
Definition new_dict (d : gmap string value) : M ref :=
  λ st,
    let r := fresh (dom (heap st)) in
    (Return r, mkState (<[r := d]> (heap st)) (owl_log st)).

(** The contents of the dict object behind a reference; a reference to
    anything else has none. *)
Definition read_dict (err : exn) (r : ref) : M (gmap string value) :=
  λ st,
    match heap st !! r with
    | Some d => (Return d, st)
    | None => (Raise err, st)
    end.

(** [d[key] = v] on the dict object behind [r]. *)
Definition store_item (r : ref) (key : string) (v : value) : M unit :=
  λ st,
    match heap st !! r with
    | Some d => (Return (), mkState (<[r := <[key := v]> d]> (heap st)) (owl_log st))
    | None => (Raise TypeError, st)
    end.

(** [attributes.copy()]: a new dict object with the same items. *)
Definition dict_copy (r : ref) : M ref :=
  d ← read_dict AttributeError r; new_dict d.

(** ** [SafeAttrs]: a dict whose missing keys read as [None] *)

Module SafeAttrs.

(** [def __missing__(self, key): return None]. *)
Definition __missing__ (key : string) : result value := Return VNone.

(** [self[key]], inherited from [dict]: a key that is absent is handed to
    [__missing__], so the lookup never raises [KeyError]. *)
Definition __getitem__ (self : gmap string value) (key : string)
    : result value :=
  match self !! key with
  | Some v => Return v
  | None => __missing__ key
  end.

(** [SafeAttrs(attributes)]: a new dict object initialised from the items
    of [attributes]. *)
Definition new (attributes : ref) : M ref :=
  d ← read_dict TypeError attributes; new_dict d.

End SafeAttrs.

(** ** [SafeEvalVisitor]: the allow-list validator *)

Module SafeEvalVisitor.

Definition ALLOWED_NODES : list string :=
  [ "Expression"; "BoolOp"; "BinOp"; "UnaryOp"; "Compare"; "Name"; "Load";
    "Constant"; "And"; "Or"; "Not"; "Eq"; "NotEq"; "In"; "NotIn"; "Gt";
    "GtE"; "Lt"; "LtE"; "Subscript"; "Index"; "Str"; "List"; "Tuple";
    "Dict" ].

(** [isinstance(node, self.ALLOWED_NODES)], on the name of the node's
    class. *)
Definition allowed (name : string) : bool :=
  bool_decide (name ∈ ALLOWED_NODES).

(** [visit_Name]: a name that the working copy does not bind is bound to
    [None] there. *)
Definition visit_Name (names : ref) (id : string) : M unit :=
  d ← read_dict TypeError names;
  if negb (bool_decide (is_Some (d !! id)))
  then store_item names id VNone
  else mret ().

(** The first statement of [generic_visit]. *)
Definition check (name : string) : M unit :=
  if negb (allowed name)
  then raise (ValueError ("Disallowed expression: " +:+ name))
  else mret ().

(** [for item in value: self.visit(item)]. *)
Fixpoint visit_each (visit : ast.expr → M unit) (l : list ast.expr)
    : M unit :=
  match l with
  | [] => mret ()
  | x :: l' => _ ← visit x; visit_each visit l'
  end.

Fixpoint visit_keys (visit : ast.expr → M unit)
    (items : list (option ast.expr * ast.expr)) : M unit :=
  match items with
  | [] => mret ()
  | (Some k, _) :: items' => _ ← visit k; visit_keys visit items'
  | (None, _) :: items' => visit_keys visit items'
  end.

Fixpoint visit_values (visit : ast.expr → M unit)
    (items : list (option ast.expr * ast.expr)) : M unit :=
  match items with
  | [] => mret ()
  | (_, v) :: items' => _ ← visit v; visit_values visit items'
  end.

(** [generic_visit] on an expression node: the class check, then
    [NodeVisitor.generic_visit], which visits the child nodes field by
    field.  [visit] stands for [self.visit].  Operator and context nodes
    have no [visit_] method and no children, so visiting one is the class
    check alone. *)
Definition generic_visit (visit : ast.expr → M unit) (node : ast.expr)
    : M unit :=
  _ ← check (ast.expr_name node);
  match node with
  | ast.BoolOp op values =>
      _ ← check (ast.boolop_name op); visit_each visit values
  | ast.BinOp lhs op rhs =>
      _ ← visit lhs; _ ← check (ast.operator_name op); visit rhs
  | ast.UnaryOp op operand =>
      _ ← check (ast.unaryop_name op); visit operand
  | ast.Dict items =>
      _ ← visit_keys visit items; visit_values visit items
  | ast.Compare lhs ops comparators =>
      _ ← visit lhs;
      _ ← mapM (λ op, check (ast.cmpop_name op)) ops;
      visit_each visit comparators
  | ast.Constant _ => mret ()
  | ast.Subscript v slice ctx =>
      _ ← visit v; _ ← visit slice; check (ast.expr_context_name ctx)
  | ast.Name _ ctx => check (ast.expr_context_name ctx)
  | ast.List elts ctx | ast.Tuple elts ctx =>
      _ ← visit_each visit elts; check (ast.expr_context_name ctx)
  | ast.Other _ children => visit_each visit children
  end.

(** [visit]: [visit_Name] for a [Name] node, [generic_visit] for every
    other node. *)
Fixpoint visit (names : ref) (node : ast.expr) {struct node} : M unit :=
  match node with
  | ast.Name id _ => visit_Name names id
  | _ => generic_visit (visit names) node
  end.

(** [SafeEvalVisitor(names).visit(tree)] on the root of the tree. *)
Definition visit_tree (names : ref) (tree : ast.mod_) : M unit :=
  match tree with
  | ast.Expression body => _ ← check "Expression"; visit names body
  end.

End SafeEvalVisitor.

(** ** [compile]: the host's check of the tree

    [compile(tree, mode="eval")] rejects a malformed tree with [ValueError]
    before any of it runs: an expression context other than [Load], a
    keyword used as a name, a [BoolOp] with fewer than two operands, a
    [Compare] whose operators and comparators do not pair up. *)

Definition compile_ctx (ctx : ast.expr_context) : result unit :=
  match ctx with
  | ast.Load => Return ()
  | _ => Raise (ValueError "expression must have Load context")
  end.

Fixpoint compile_each (comp : ast.expr → result unit) (l : list ast.expr)
    : result unit :=
  match l with
  | [] => Return ()
  | x :: l' => _ ← comp x; compile_each comp l'
  end.

Fixpoint compile_items (comp : ast.expr → result unit)
    (items : list (option ast.expr * ast.expr)) : result unit :=
  match items with
  | [] => Return ()
  | (Some k, v) :: items' => _ ← comp k; _ ← comp v; compile_items comp items'
  | (None, v) :: items' => _ ← comp v; compile_items comp items'
  end.

Fixpoint compile_expr (e : ast.expr) {struct e} : result unit :=
  match e with
  | ast.BoolOp _ values =>
      if (length values <? 2)%nat
      then Raise (ValueError "BoolOp with less than 2 values")
      else compile_each compile_expr values
  | ast.BinOp lhs _ rhs => _ ← compile_expr lhs; compile_expr rhs
  | ast.UnaryOp _ operand => compile_expr operand
  | ast.Dict items => compile_items compile_expr items
  | ast.Compare lhs ops comparators =>
      if bool_decide (comparators = [])
      then Raise (ValueError "Compare with no comparators")
      else if negb (length ops =? length comparators)%nat
      then Raise (ValueError "Compare has a different number of comparators and operands")
      else _ ← compile_each compile_expr comparators; compile_expr lhs
  | ast.Constant _ => Return ()
  | ast.Subscript v slice ctx =>
      _ ← compile_expr slice; _ ← compile_expr v; compile_ctx ctx
  | ast.Name id ctx =>
      if bool_decide (id ∈ ["None"; "True"; "False"])
      then Raise (ValueError "identifier field can't represent a constant")
      else compile_ctx ctx
  | ast.List elts ctx | ast.Tuple elts ctx =>
      _ ← compile_each compile_expr elts; compile_ctx ctx
  | ast.Other _ _ => Return ()
  end.

(** [__debug__], the constant that the interpreter sets at start-up: true
    unless it was started with [-O]. *)
Definition sys_flags_optimize : Z := 0.
Definition __debug__ : bool := sys_flags_optimize =? 0.

(** The optimiser of [compile], run on the checked tree.  It replaces a
    read of the name [__debug__] by the constant, so that this name is not
    looked up when the code runs.  Its other rewrites (constant
    subexpressions, a constant list after [in]) do not change the outcome
    of the expression and are left out. *)
Fixpoint optimize (e : ast.expr) : ast.expr :=
  match e with
  | ast.Name id ast.Load =>
      if String.eqb id "__debug__" then ast.Constant (ast.c_bool __debug__)
      else e
  | ast.Name _ _ | ast.Constant _ => e
  | ast.BoolOp op values => ast.BoolOp op (map optimize values)
  | ast.BinOp lhs op rhs => ast.BinOp (optimize lhs) op (optimize rhs)
  | ast.UnaryOp op operand => ast.UnaryOp op (optimize operand)
  | ast.Dict items =>
      ast.Dict (map (λ kv, (from_option (λ k, Some (optimize k)) None kv.1,
                            optimize kv.2)) items)
  | ast.Compare lhs ops comparators =>
      ast.Compare (optimize lhs) ops (map optimize comparators)
  | ast.Subscript v slice ctx => ast.Subscript (optimize v) (optimize slice) ctx
  | ast.List elts ctx => ast.List (map optimize elts) ctx
  | ast.Tuple elts ctx => ast.Tuple (map optimize elts) ctx
  | ast.Other kind children => ast.Other kind (map optimize children)
  end.

(** The code object is the checked and optimised tree. *)
Definition compile (tree : ast.mod_) : result ast.expr :=
  match tree with
  | ast.Expression body => _ ← compile_expr body; Return (optimize body)
  end.

(** ** [eval]: the host's evaluation of the compiled expression *)

(** Name resolution of code compiled in [eval] mode: the locals mapping is
    asked first through its [__getitem__]; only a [KeyError] from it falls
    through to the globals and then to the builtins table. *)
Definition load_name (globals builtins : gmap string value)
    (locals_getitem : string → result value) (name : string) : result value :=
  match locals_getitem name with
  | Raise KeyError =>
      match globals !! name with
      | Some v => Return v
      | None =>
          match builtins !! name with
          | Some v => Return v
          | None => Raise NameError
          end
      end
  | r => r
  end.

(** One comparison [l op r]. *)
Definition compare_op (op : ast.cmpop) (l r : value) : result value :=
  match op with
  | ast.Eq => Return (VBool (py_eq l r))
  | ast.NotEq => Return (VBool (py_ne l r))
  | ast.Lt => VBool <$> py_order Py_LT l r
  | ast.LtE => VBool <$> py_order Py_LE l r
  | ast.Gt => VBool <$> py_order Py_GT l r
  | ast.GtE => VBool <$> py_order Py_GE l r
  | ast.In => VBool <$> py_contains r l
  | ast.NotIn => (λ b, VBool (negb b)) <$> py_contains r l
  | ast.Is | ast.IsNot => Raise Unmodelled
  end.

(** [a and b and ...] / [a or b or ...]: the first operand that decides the
    result is the result; later operands are not evaluated. *)
Definition decides (op : ast.boolop) (v : value) : bool :=
  match op with
  | ast.And => negb (truthy v)
  | ast.Or => truthy v
  end.

Fixpoint eval_boolop (op : ast.boolop) (ev : ast.expr → result value)
    (values : list ast.expr) : result value :=
  match values with
  | [] => Raise (ValueError "BoolOp with less than 2 values")
  | [e] => ev e
  | e :: rest =>
      v ← ev e; if decides op v then Return v else eval_boolop op ev rest
  end.

(** [l op1 c1 op2 c2 ...]: each comparator is evaluated once, and the chain
    stops at the first comparison that is false. *)
Fixpoint eval_compare (ev : ast.expr → result value) (l : value)
    (ops : list ast.cmpop) (comparators : list ast.expr) {struct comparators}
    : result value :=
  match ops, comparators with
  | [op], [c] => r ← ev c; compare_op op l r
  | op :: ops', c :: cs' =>
      r ← ev c;
      b ← compare_op op l r;
      if truthy b then eval_compare ev r ops' cs' else Return b
  | _, _ => Raise (ValueError "Compare with no comparators")
  end.

Fixpoint eval_each (ev : ast.expr → result value) (l : list ast.expr)
    : result (list value) :=
  match l with
  | [] => Return []
  | e :: l' => v ← ev e; vs ← eval_each ev l'; Return (v :: vs)
  end.

(** *** Dict displays

    The code that [compile] emits for [{k1: v1, ..., **m, ...}] gathers the
    [key: value] items that follow one another into chunks.  The keys and
    values of a chunk are evaluated from left to right and only then
    entered into a new dict ([BUILD_MAP n]), which is when an unhashable
    key raises; a chunk of more than [STACK_USE_GUIDELINE / 2] items is
    entered item by item instead ([BUILD_MAP 0] and a [MAP_ADD] after each
    item).  Every chunk after the first, and every [**m], is merged into
    the dict built so far ([DICT_UPDATE]). *)

Definition STACK_USE_GUIDELINE : nat := 30.

(** The keys and values of a chunk, each given by its outcome, evaluated
    from left to right. *)
Fixpoint chunk_values (chunk : list (result value * result value))
    : result (list (value * value)) :=
  match chunk with
  | [] => Return []
  | (k, v) :: chunk' =>
      key ← k; val ← v; kvs ← chunk_values chunk'; Return ((key, val) :: kvs)
  end.

(** [BUILD_MAP n]: the evaluated items entered from left to right. *)
Fixpoint build_map (d : list (value * value)) (kvs : list (value * value))
    : result (list (value * value)) :=
  match kvs with
  | [] => Return d
  | (k, v) :: kvs' => d' ← dict_setitem d k v; build_map d' kvs'
  end.

(** [MAP_ADD] after each item. *)
Fixpoint map_add_each (d : list (value * value))
    (chunk : list (result value * result value))
    : result (list (value * value)) :=
  match chunk with
  | [] => Return d
  | (k, v) :: chunk' =>
      key ← k; val ← v; d' ← dict_setitem d key val; map_add_each d' chunk'
  end.

(** The dict of one chunk. *)
Definition subdict (chunk : list (result value * result value))
    : result (list (value * value)) :=
  if (STACK_USE_GUIDELINE <? 2 * length chunk)%nat
  then map_add_each [] chunk
  else kvs ← chunk_values chunk; build_map [] kvs.

(** The pending chunk, if there is one, is built and merged into the dict
    built so far, if there is one. *)
Definition flush (chunk : list (result value * result value))
    (d : option (list (value * value)))
    : result (option (list (value * value))) :=
  match chunk with
  | [] => Return d
  | _ :: _ =>
      sub ← subdict chunk;
      match d with
      | Some d0 => Some <$> dict_update d0 (VDict sub)
      | None => Return (Some sub)
      end
  end.

(** The display, from the outcomes of its operands: [pending] is the chunk
    being gathered and [d] the dict built so far. *)
Fixpoint build_dict (items : list (option (result value) * result value))
    (pending : list (result value * result value))
    (d : option (list (value * value))) : result (list (value * value)) :=
  match items with
  | [] => d' ← flush pending d; Return (default [] d')
  | (None, m) :: items' =>
      d1 ← flush pending d;
      mapping ← m;
      d2 ← dict_update (default [] d1) mapping;
      build_dict items' [] (Some d2)
  | (Some k, v) :: items' =>
      if (STACK_USE_GUIDELINE <? 2 * length pending)%nat
      then d1 ← flush (pending ++ [(k, v)]) d; build_dict items' [] d1
      else build_dict items' (pending ++ [(k, v)]) d
  end.

(** A dict display.  Evaluation has no effect on the store, so that the
    outcome of each operand can be taken beforehand; [build_dict] consults
    them in the order of the emitted code and stops at the first that is an
    exception. *)
Definition eval_items (ev : ast.expr → result value)
    (items : list (option ast.expr * ast.expr))
    : result (list (value * value)) :=
  build_dict
    (map (λ kv, (from_option (λ k, Some (ev k)) None kv.1, ev kv.2)) items)
    [] None.

(** Evaluation of an expression, given the resolution of names.  Operators
    off the allow-list have no evaluation rule here: the visitor has
    rejected the tree before [eval] is reached (lemma
    [visit_Return_modelled] below). *)
Fixpoint eval_expr (lookup : string → result value) (e : ast.expr) {struct e}
    : result value :=
  match e with
  | ast.Constant c => Return (ast.constant_value c)
  | ast.Name id _ => lookup id
  | ast.BoolOp op values => eval_boolop op (eval_expr lookup) values
  | ast.UnaryOp ast.Not operand =>
      v ← eval_expr lookup operand; Return (VBool (negb (truthy v)))
  | ast.Compare lhs ops comparators =>
      l ← eval_expr lookup lhs;
      eval_compare (eval_expr lookup) l ops comparators
  | ast.List elts _ => VList <$> eval_each (eval_expr lookup) elts
  | ast.Tuple elts _ => VTuple <$> eval_each (eval_expr lookup) elts
  | ast.Dict items => VDict <$> eval_items (eval_expr lookup) items
  | ast.Subscript v slice _ =>
      container ← eval_expr lookup v;
      index ← eval_expr lookup slice;
      py_getitem container index
  | ast.UnaryOp _ _ | ast.BinOp _ _ _ | ast.Other _ _ => Raise Unmodelled
  end.

(** [eval(compiled, globals, locals)] with a [SafeAttrs] object as locals;
    [builtins] is the table found under ["__builtins__"] in [globals]. *)
Definition eval (compiled : ast.expr) (globals builtins : gmap string value)
    (locals : ref) : M value :=
  d ← read_dict TypeError locals;
  lift (eval_expr (load_name globals builtins (SafeAttrs.__getitem__ d)) compiled).

(** ** [eval_attr_logic] *)

Section Evaluator.

(** [ast.parse(expression, mode="eval")]: the host's parser. *)
Variable ast_parse : string → result ast.mod_.

(** [{"__builtins__": {}}] and the builtins table it designates. *)
Definition eval_globals : gmap string value := {[ "__builtins__" := VDict [] ]}.
Definition eval_builtins : gmap string value := ∅.

(** The body of the [try] statement. *)
Definition eval_attr_logic_body (expression : string) (attributes : ref)
    : M bool :=
  tree ← lift (ast_parse expression);
  names ← dict_copy attributes;
  _ ← SafeEvalVisitor.visit_tree names tree;
  compiled ← lift (compile tree);
  locals ← SafeAttrs.new attributes;
  result ← eval compiled eval_globals eval_builtins locals;
  mret (truthy result).

Definition eval_attr_logic (expression : string) (attributes : ref)
    : M bool :=
  if negb (truthy (VStr expression)) || negb (truthy (VStr (strip expression)))
  then mret true
  else
    try_except (eval_attr_logic_body expression attributes)
      (λ e, _ ← log e; mret false).

End Evaluator.

(** ** The traversal and the decision as pure functions

    The definitions of this part are not in the source; they describe what
    the code above computes, and the lemmas of the second half relate the
    two. *)

(** The class names of all the nodes of an expression, as [ast.walk] would
    enumerate them. *)
Fixpoint walk (e : ast.expr) : list string :=
  ast.expr_name e ::
  match e with
  | ast.BoolOp op values => ast.boolop_name op :: concat (map walk values)
  | ast.BinOp l op r => walk l ++ ast.operator_name op :: walk r
  | ast.UnaryOp op operand => ast.unaryop_name op :: walk operand
  | ast.Dict items =>
      concat (map (λ kv, from_option walk [] kv.1) items)
      ++ concat (map (λ kv, walk kv.2) items)
  | ast.Compare l ops cs =>
      walk l ++ map ast.cmpop_name ops ++ concat (map walk cs)
  | ast.Constant _ => []
  | ast.Subscript v slice ctx =>
      walk v ++ walk slice ++ [ast.expr_context_name ctx]
  | ast.Name _ ctx => [ast.expr_context_name ctx]
  | ast.List elts ctx | ast.Tuple elts ctx =>
      concat (map walk elts) ++ [ast.expr_context_name ctx]
  | ast.Other _ children => concat (map walk children)
  end.

(** The class names that the visitor checks, in the order in which it
    checks them: those of [walk] except for [Name] nodes, which
    [visit_Name] handles without a class check and without descending. *)
Fixpoint visited (e : ast.expr) : list string :=
  match e with
  | ast.Name _ _ => []
  | ast.BoolOp op values =>
      "BoolOp" :: ast.boolop_name op :: concat (map visited values)
  | ast.BinOp l op r =>
      "BinOp" :: visited l ++ ast.operator_name op :: visited r
  | ast.UnaryOp op operand =>
      "UnaryOp" :: ast.unaryop_name op :: visited operand
  | ast.Dict items =>
      "Dict" :: concat (map (λ kv, from_option visited [] kv.1) items)
      ++ concat (map (λ kv, visited kv.2) items)
  | ast.Compare l ops cs =>
      "Compare" :: visited l ++ map ast.cmpop_name ops
      ++ concat (map visited cs)
  | ast.Constant _ => ["Constant"]
  | ast.Subscript v slice ctx =>
      "Subscript" :: visited v ++ visited slice ++ [ast.expr_context_name ctx]
  | ast.List elts ctx =>
      "List" :: concat (map visited elts) ++ [ast.expr_context_name ctx]
  | ast.Tuple elts ctx =>
      "Tuple" :: concat (map visited elts) ++ [ast.expr_context_name ctx]
  | ast.Other k children =>
      ast.other_expr_name k :: concat (map visited children)
  end.

(** Checking a sequence of class names: the first one off the allow-list
    raises. *)
Fixpoint check_all (names : list string) : result unit :=
  match names with
  | [] => Return ()
  | n :: names' =>
      if SafeEvalVisitor.allowed n then check_all names'
      else Raise (ValueError ("Disallowed expression: " +:+ n))
  end.

(** The outcome of [SafeEvalVisitor(...).visit(tree)]. *)
Definition validate (tree : ast.mod_) : result unit :=
  match tree with
  | ast.Expression body => check_all ("Expression" :: visited body)
  end.

(** What the [try] block of [eval_attr_logic] computes from the parsed
    tree and the items [d] of the attribute mapping. *)
Definition policy_value (ast_parse : string → result ast.mod_)
    (expression : string) (d : gmap string value) : result value :=
  tree ← ast_parse expression;
  _ ← validate tree;
  compiled ← compile tree;
  eval_expr (load_name eval_globals eval_builtins (SafeAttrs.__getitem__ d))
    compiled.

(** [expression] is empty or consists of white space only. *)
Definition blank (expression : string) : bool :=
  forallb isspace (list_ascii_of_string expression).

(** A computation on the working copy [names] agrees with the checks [l]:
    it raises what [check_all l] raises, and writes to no other object and
    not to the log. *)
Definition runs_as {A : Type} (names : ref) (m : M A) (l : list string)
    : Prop :=
  ∀ st d, heap st !! names = Some d →
    ∃ d', (λ _, ()) <$> (m st).1 = check_all l
          ∧ (m st).2 = mkState (<[names := d']> (heap st)) (owl_log st).

(** ** [get_lms_ctfd_data_for_email]

    The environment, the HTTP client and [urllib.parse.quote] are
    parameters.  The decorator [cache.memoize(timeout=5)] is not part of the
    embedding: the definition below is the decorated function. *)

Module requests.

(** What the code reads of a response: [resp.status_code] and the outcome
    of [resp.json()]. *)
Record Response : Type := mkResponse {
  status_code : Z;
  json : result value
}.

End requests.

(** [str(e)]. *)
Definition exn_str (e : exn) : string :=
  match e with
  | ValueError msg | RequestException msg | LMSUnavailable msg => msg
  | SyntaxError => "invalid syntax"
  | RecursionError => "maximum recursion depth exceeded"
  | MemoryError | TypeError | KeyError | IndexError | AttributeError
  | NameError | Unmodelled => EmptyString
  end.

(** [s.rstrip("/")]. *)
Fixpoint rstrip_slash (s : string) : string :=
  match s with
  | EmptyString => EmptyString
  | String c s' =>
      match rstrip_slash s' with
      | EmptyString =>
          if Ascii.eqb c "/" then EmptyString else String c EmptyString
      | r => String c r
      end
  end.

(** [data.get(key)]: [dict.get] on a dict, [AttributeError] on a value of
    another type, which has no attribute [get]. *)
Definition data_get (data : value) (key : string) : result value :=
  match data with
  | VDict items => Return (default VNone (assoc_get py_eq (VStr key) items))
  | _ => Raise AttributeError
  end.

(** [x or y] when [y] is a display, which cannot raise. *)
Definition py_or (x y : value) : value := if truthy x then x else y.

Definition isinstance_dict (v : value) : bool :=
  match v with VDict _ => true | _ => false end.

Definition isinstance_list (v : value) : bool :=
  match v with VList _ => true | _ => false end.

Section Provider.

(** [os.getenv]. *)
Variable getenv : string → option string.
(** [urllib.parse.quote(email, safe='')]. *)
Variable quote : string → string.
(** [requests.get(url, headers=headers, timeout=5)]. *)
Variable requests_get : string → list (string * string) → result requests.Response.

Definition get_lms_ctfd_data_for_email (email : string) : result value :=
  let base_url := getenv "LMS_BASE_URL" in
  let token := getenv "LMS_CTFD_TOKEN" in
  match base_url, token with
  | Some base_url, Some token =>
      if negb (truthy (VStr base_url)) || negb (truthy (VStr token))
      then Raise (LMSUnavailable "LMS is not configured (LMS_BASE_URL/LMS_CTFD_TOKEN)")
      else
        let base := rstrip_slash base_url in
        let path_email := quote email in
        let url := base +:+ "/account/" +:+ path_email +:+ "/ctfd-data" in
        let headers := [("Accept", "application/json"); ("X-CTFd-Token", token)] in
        match requests_get url headers with
        | Raise (RequestException msg) => Raise (LMSUnavailable msg)
        | Raise e => Raise e
        | Return resp =>
            if negb (requests.status_code resp =? 200)
            then Raise (LMSUnavailable
                          ("LMS returned " +:+ pretty (requests.status_code resp)))
            else
              match requests.json resp with
              | Raise e =>
                  Raise (LMSUnavailable ("Invalid LMS JSON: " +:+ exn_str e))
              | Return data =>
                  attr ← (λ v, py_or v (VDict [])) <$> data_get data "attributes";
                  task_ids ← (λ v, py_or v (VList []))
                               <$> data_get data "active_attempt_task_ids";
                  if negb (isinstance_dict attr) || negb (isinstance_list task_ids)
                  then Raise (LMSUnavailable "Invalid LMS payload structure")
                  else Return (VDict [(VStr "attributes", attr);
                                      (VStr "active_attempt_task_ids", task_ids)])
              end
        end
  | _, _ => Raise (LMSUnavailable "LMS is not configured (LMS_BASE_URL/LMS_CTFD_TOKEN)")
  end.

End Provider.

(** ** A stand-in for the host's parser

    The trees that [ast.parse(s, mode="eval")] returns for the expressions
    used as examples below, as [ast.dump] prints them; this stand-in treats
    every other string as a syntax error. *)

Definition name (id : string) : ast.expr := ast.Name id ast.Load.
Definition str_lit (s : string) : ast.expr := ast.Constant (ast.c_str s).
Definition int_lit (n : Z) : ast.expr := ast.Constant (ast.c_int n).

(** The source text of a string literal in double quotes. *)
Definition quoted (s : string) : string :=
  String "034"%char s +:+ String "034"%char EmptyString.

Definition example_trees : list (string * ast.expr) :=
  [ ("missing_key", name "missing_key");
    ("len", name "len");
    ("__debug__", name "__debug__");
    ("role == " +:+ quoted "pro",
     ast.Compare (name "role") [ast.Eq] [str_lit "pro"]);
    ("department == " +:+ quoted "infosec" +:+ " and level >= 3",
     ast.BoolOp ast.And
       [ast.Compare (name "department") [ast.Eq] [str_lit "infosec"];
        ast.Compare (name "level") [ast.GtE] [int_lit 3]]);
    (quoted "admin" +:+ " in roles",
     ast.Compare (str_lit "admin") [ast.In] [name "roles"]);
    ("level >= " +:+ quoted "not-a-number",
     ast.Compare (name "level") [ast.GtE] [str_lit "not-a-number"]);
    ("level != " +:+ quoted "not-a-number",
     ast.Compare (name "level") [ast.NotEq] [str_lit "not-a-number"]);
    (quoted "pro" +:+ " in role",
     ast.Compare (str_lit "pro") [ast.In] [name "role"]);
    ("1 + 2", ast.BinOp (int_lit 1) ast.Add (int_lit 2)) ].

Definition example_parse (expression : string) : result ast.mod_ :=
  match list_find (λ st, st.1 = expression) example_trees with
  | Some (_, (_, body)) => Return (ast.Expression body)
  | None => Raise SyntaxError
  end.

(** Every class name of a list is on the allow-list. *)
Abbreviation all_allowed := (Forall (λ n, SafeEvalVisitor.allowed n = true)).

(** [r] is an outcome of the modelled syntax. *)
Definition modelled {A : Type} (r : result A) : Prop := r ≠ Raise Unmodelled.

(** [d[key]] on a plain [dict], which has no [__missing__]. *)
Definition dict_getitem (d : gmap string value) (key : string) : result value :=
  match d !! key with
  | Some v => Return v
  | None => Raise KeyError
  end.

(** The values that are false in a boolean context. *)
Definition falsy_values : list value :=
  [VNone; VBool false; VInt 0; VStr EmptyString; VList []; VTuple [];
   VDict []].

(** The types of values as far as comparison is concerned; [bool] and
    [int] are both numbers. *)
Inductive kind : Type := KNone | KNumber | KStr | KList | KTuple | KDict.

Definition kind_of (v : value) : kind :=
  match v with
  | VNone => KNone
  | VBool _ | VInt _ => KNumber
  | VStr _ => KStr
  | VList _ => KList
  | VTuple _ => KTuple
  | VDict _ => KDict
  end.

#[global] Instance kind_eq_dec : EqDecision kind.
Proof. solve_decision. Defined.

(** The pairs of operand types that the host can order. *)
Definition orderable (a b : value) : bool :=
  bool_decide (kind_of a = kind_of b)
  && bool_decide (kind_of a ∈ [KNumber; KStr; KList; KTuple]).

Definition ordering_op (op : ast.cmpop) : bool :=
  match op with
  | ast.Lt | ast.LtE | ast.Gt | ast.GtE => true
  | _ => false
  end.

(** The field [name] of a JSON object, and its value after the
    normalisation [data.get(name) or dflt]. *)
Definition json_field (items : list (value * value)) (name : string)
    : option value :=
  assoc_get py_eq (VStr name) items.

Definition normalized (field : option value) (dflt : value) : value :=
  match field with
  | Some v => if truthy v then v else dflt
  | None => dflt
  end.

(** The request that the function sends for a base URL, a token and an
    email. *)
Definition lms_url (quote : string → string) (base_url email : string) : string :=
  rstrip_slash base_url +:+ "/account/" +:+ quote email +:+ "/ctfd-data".

Definition lms_headers (token : string) : list (string * string) :=
  [("Accept", "application/json"); ("X-CTFd-Token", token)].

(** A configured environment and an LMS that answers every request with
    the given status and body. *)
Definition example_getenv (name : string) : option string :=
  if decide (name = "LMS_BASE_URL") then Some "https://lms.example/"
  else if decide (name = "LMS_CTFD_TOKEN") then Some "secret"
  else None.

Definition example_requests_get (status : Z) (body : result value)
    (url : string) (headers : list (string * string))
    : result requests.Response :=
  Return (requests.mkResponse status body).

(** A store that holds one dict object, the caller's attribute mapping, and
    an empty log. *)
Definition caller : ref := 1%positive.

Definition example_state (d : gmap string value) : state :=
  mkState {[ caller := d ]} [].

(** ** The names of an expression and the language the visitor accepts *)

(** The identifiers of the [Name] nodes of an expression, in the order in
    which the visitor meets them. *)
Fixpoint names_of (e : ast.expr) : list string :=
  match e with
  | ast.Name id _ => [id]
  | ast.BoolOp _ values => concat (map names_of values)
  | ast.BinOp l _ r => names_of l ++ names_of r
  | ast.UnaryOp _ operand => names_of operand
  | ast.Dict items =>
      concat (map (λ kv, from_option names_of [] kv.1) items)
      ++ concat (map (λ kv, names_of kv.2) items)
  | ast.Compare l _ cs => names_of l ++ concat (map names_of cs)
  | ast.Constant _ => []
  | ast.Subscript v slice _ => names_of v ++ names_of slice
  | ast.List elts _ | ast.Tuple elts _ => concat (map names_of elts)
  | ast.Other _ children => concat (map names_of children)
  end.

(** The items of a mapping after each of the names [ids], in turn, has been
    bound to [None] unless it was bound already. *)
Definition bind_default (d : gmap string value) (id : string)
    : gmap string value :=
  if bool_decide (is_Some (d !! id)) then d else <[id := VNone]> d.

Definition bind_defaults (ids : list string) (d : gmap string value)
    : gmap string value :=
  foldl bind_default d ids.

(** A computation on the working copy [names] binds the names [ids] by
    default, or a prefix of them if it raises, and writes nothing else. *)
Definition tracks {A : Type} (names : ref) (m : M A) (ids : list string)
    : Prop :=
  ∀ st d, heap st !! names = Some d →
    ∃ ids', ids' `prefix_of` ids
            ∧ (m st).2 = mkState (<[names := bind_defaults ids' d]> (heap st))
                           (owl_log st)
            ∧ (∀ a, (m st).1 = Return a → ids' = ids).

(** The expressions that the visitor lets through, described by their
    syntax: names, constants, [and]/[or], [not], comparisons other than
    [is]/[is not], subscripts, and list, tuple and dict displays. *)
Definition cmpop_accepted (op : ast.cmpop) : bool :=
  match op with
  | ast.Is | ast.IsNot => false
  | _ => true
  end.

Definition is_Load (ctx : ast.expr_context) : bool :=
  match ctx with ast.Load => true | _ => false end.

Fixpoint accepted (e : ast.expr) : bool :=
  match e with
  | ast.Name _ _ => true
  | ast.Constant _ => true
  | ast.BoolOp _ values => forallb accepted values
  | ast.UnaryOp op operand =>
      match op with ast.Not => accepted operand | _ => false end
  | ast.BinOp _ _ _ => false
  | ast.Compare l ops cs =>
      accepted l && forallb cmpop_accepted ops && forallb accepted cs
  | ast.Subscript v slice ctx => accepted v && accepted slice && is_Load ctx
  | ast.List elts ctx | ast.Tuple elts ctx =>
      forallb accepted elts && is_Load ctx
  | ast.Dict items =>
      forallb (λ kv, from_option accepted true kv.1) items
      && forallb (λ kv, accepted kv.2) items
  | ast.Other _ _ => false
  end.

(** An outcome that, if it is an exception, is one that satisfies [P]. *)
Definition raises_only {A : Type} (P : exn → Prop) (r : result A) : Prop :=
  ∀ e, r = Raise e → P e.

(** An outcome that, if it is an exception, is one of the three that the
    evaluation of an accepted expression can raise. *)
Definition benign {A : Type} (r : result A) : Prop :=
  raises_only (λ e, e = TypeError ∨ e = IndexError ∨ e = KeyError) r.

(** Name resolution as the compiled code performs it: [__debug__] is the
    constant that the optimiser has put in its place, every other name is
    looked up. *)
Definition folded (lookup : string → result value) (id : string)
    : result value :=
  if String.eqb id "__debug__" then Return (VBool __debug__) else lookup id.

(** * Properties *)

(** ** Induction over syntax trees *)

Lemma expr_ind_nested (P : ast.expr → Prop) :
  (∀ op values, Forall P values → P (ast.BoolOp op values)) →
  (∀ l op r, P l → P r → P (ast.BinOp l op r)) →
  (∀ op e, P e → P (ast.UnaryOp op e)) →
  (∀ items, Forall (λ kv, from_option P True kv.1 ∧ P kv.2) items →
            P (ast.Dict items)) →
  (∀ l ops cs, P l → Forall P cs → P (ast.Compare l ops cs)) →
  (∀ c, P (ast.Constant c)) →
  (∀ v s ctx, P v → P s → P (ast.Subscript v s ctx)) →
  (∀ id ctx, P (ast.Name id ctx)) →
  (∀ elts ctx, Forall P elts → P (ast.List elts ctx)) →
  (∀ elts ctx, Forall P elts → P (ast.Tuple elts ctx)) →
  (∀ k children, Forall P children → P (ast.Other k children)) →
  ∀ e, P e.
Proof.
  intros HBool HBin HUn HDict HCmp HConst HSub HName HList HTuple HOther.
  fix IH 1. intros e.
  assert (Hall : ∀ l, Forall P l).
  { fix IHl 1. intros [|x l]; constructor; [apply IH | apply IHl]. }
  destruct e.
  - apply HBool, Hall.
  - apply HBin; apply IH.
  - apply HUn, IH.
  - apply HDict.
    revert items. fix IHi 1. intros [|[[k|] v] items]; constructor.
    + split; apply IH.
    + apply IHi.
    + split; [exact I | apply IH].
    + apply IHi.
  - apply HCmp; [apply IH | apply Hall].
  - apply HConst.
  - apply HSub; apply IH.
  - apply HName.
  - apply HList, Hall.
  - apply HTuple, Hall.
  - apply HOther, Hall.
Qed.

(** ** White space *)

Lemma lstrip_blank s :
  forallb isspace (list_ascii_of_string (lstrip s))
  = forallb isspace (list_ascii_of_string s).
Proof.
  induction s as [|c s IH]; simpl; [done|].
  destruct (isspace c) eqn:Hc; simpl; [done | by rewrite Hc].
Qed.

Lemma rstrip_empty s :
  rstrip s = EmptyString ↔ forallb isspace (list_ascii_of_string s) = true.
Proof.
  induction s as [|c s IH]; simpl; [done|].
  destruct (rstrip s) eqn:Hr.
  - destruct (isspace c); simpl; [by rewrite <- IH | by split].
  - split; [done|]. rewrite andb_true_iff. intros [_ Hs].
    apply IH in Hs. done.
Qed.

Lemma strip_empty s : strip s = EmptyString ↔ blank s = true.
Proof. unfold strip, blank. by rewrite rstrip_empty, lstrip_blank. Qed.

(** The guard of [eval_attr_logic] is the test for a blank expression. *)
Lemma guard_blank expression :
  negb (truthy (VStr expression)) || negb (truthy (VStr (strip expression)))
  = blank expression.
Proof.
  simpl. rewrite !negb_involutive.
  destruct (blank expression) eqn:Hb.
  - apply strip_empty in Hb. rewrite Hb. apply orb_true_r.
  - apply orb_false_iff. split.
    + destruct expression; [done|]. done.
    + apply not_true_iff_false. intros He%String.eqb_eq.
      apply strip_empty in He. congruence.
Qed.

(** ** The visitor agrees with [check_all] *)

Lemma check_all_app l1 l2 :
  check_all (l1 ++ l2) = (_ ← check_all l1; check_all l2).
Proof.
  induction l1 as [|n l1 IH]; simpl; [done|].
  destruct (SafeEvalVisitor.allowed n); [exact IH | done].
Qed.

Lemma check_all_Return l :
  check_all l = Return () ↔ Forall (λ n, SafeEvalVisitor.allowed n = true) l.
Proof.
  induction l as [|n l IH]; simpl.
  - split; [constructor | done].
  - destruct (SafeEvalVisitor.allowed n) eqn:Hn.
    + rewrite IH. split; [by constructor | by inversion 1].
    + split; [done | inversion 1; congruence].
Qed.

Lemma check_all_Raise l e :
  check_all l = Raise e →
  ∃ n, n ∈ l ∧ SafeEvalVisitor.allowed n = false
       ∧ e = ValueError ("Disallowed expression: " +:+ n).
Proof.
  induction l as [|n l IH]; simpl; [done|].
  destruct (SafeEvalVisitor.allowed n) eqn:Hn.
  - intros (m & ? & ?)%IH. exists m. split; [by right | done].
  - intros [= <-]. exists n. split; [by left | done].
Qed.

Section Visitor.

Variable names : ref.

Lemma state_insert_id st d :
  heap st !! names = Some d →
  st = mkState (<[names := d]> (heap st)) (owl_log st).
Proof. intros H. destruct st as [h lg]; simpl in *. by rewrite insert_id. Qed.

Lemma runs_as_ret {A} (a : A) : runs_as names (mret a) [].
Proof. intros st d Hd. exists d. split; [done|]. by apply state_insert_id. Qed.

Lemma runs_as_check n : runs_as names (SafeEvalVisitor.check n) [n].
Proof.
  intros st d Hd. exists d. unfold SafeEvalVisitor.check. simpl.
  destruct (SafeEvalVisitor.allowed n); simpl;
    (split; [done | by apply state_insert_id]).
Qed.

Lemma runs_as_bind {A B} (m : M A) (k : A → M B) l1 l2 :
  runs_as names m l1 → (∀ a, runs_as names (k a) l2) →
  runs_as names (m ≫= k) (l1 ++ l2).
Proof.
  intros Hm Hk st d Hd. destruct (Hm st d Hd) as (d1 & Hr & Hst).
  unfold mbind, M_bind.
  destruct (m st) as [[a|e] st1]; simpl in *; subst st1;
    rewrite check_all_app, <- Hr; simpl.
  - destruct (Hk a (mkState (<[names := d1]> (heap st)) (owl_log st)) d1)
      as (d2 & Hr2 & Hst2); [by simpl; rewrite lookup_insert_eq|].
    exists d2. simpl in *. split; [done|]. rewrite Hst2.
    by rewrite insert_insert_eq.
  - by exists d1.
Qed.

Lemma runs_as_cons {A B} (m : M A) (k : A → M B) n l :
  runs_as names m [n] → (∀ a, runs_as names (k a) l) →
  runs_as names (m ≫= k) (n :: l).
Proof. apply (runs_as_bind m k [n] l). Qed.

Lemma runs_as_skip {A B} (m : M A) (k : A → M B) l :
  runs_as names m [] → (∀ a, runs_as names (k a) l) →
  runs_as names (m ≫= k) l.
Proof. apply (runs_as_bind m k [] l). Qed.

Lemma runs_as_visit_Name id :
  runs_as names (SafeEvalVisitor.visit_Name names id) [].
Proof.
  intros st d Hd. unfold SafeEvalVisitor.visit_Name, read_dict, store_item.
  unfold mbind, M_bind. rewrite Hd.
  destruct (negb _); simpl.
  - rewrite Hd. by eexists.
  - exists d. split; [done|]. by apply state_insert_id.
Qed.

Lemma runs_as_ops ops :
  runs_as names (mapM (λ op, SafeEvalVisitor.check (ast.cmpop_name op)) ops)
    (map ast.cmpop_name ops).
Proof.
  induction ops as [|op ops IH]; simpl; [apply runs_as_ret|].
  apply runs_as_cons; [apply runs_as_check|]. intros y.
  rewrite <- (app_nil_r (map _ ops)).
  apply runs_as_bind; [exact IH|]. intros ?. apply runs_as_ret.
Qed.

Lemma runs_as_visit_each (visit : ast.expr → M unit) f l :
  Forall (λ e, runs_as names (visit e) (f e)) l →
  runs_as names (SafeEvalVisitor.visit_each visit l) (concat (map f l)).
Proof.
  induction 1 as [|e l He _ IH]; simpl; [apply runs_as_ret|].
  apply runs_as_bind; [exact He | intros _; exact IH].
Qed.

Lemma runs_as_visit_keys (visit : ast.expr → M unit) f items :
  Forall (λ kv : option ast.expr * ast.expr,
            from_option (λ e, runs_as names (visit e) (f e)) True kv.1) items →
  runs_as names (SafeEvalVisitor.visit_keys visit items)
    (concat (map (λ kv, from_option f [] kv.1) items)).
Proof.
  induction 1 as [|[[k|] v] items Hk _ IH]; simpl in *;
    [apply runs_as_ret | | exact IH].
  apply runs_as_bind; [exact Hk | intros _; exact IH].
Qed.

Lemma runs_as_visit_values (visit : ast.expr → M unit) f items :
  Forall (λ kv : option ast.expr * ast.expr,
            runs_as names (visit kv.2) (f kv.2)) items →
  runs_as names (SafeEvalVisitor.visit_values visit items)
    (concat (map (λ kv, f kv.2) items)).
Proof.
  induction 1 as [|[k v] items Hv _ IH]; simpl in *; [apply runs_as_ret|].
  apply runs_as_bind; [exact Hv | intros _; exact IH].
Qed.

(** The visitor raises exactly when one of the class names it checks is
    off the allow-list, and then for the first such name. *)
Lemma visit_runs_as e :
  runs_as names (SafeEvalVisitor.visit names e) (visited e).
Proof.
  induction e as [op values IH|l op r IHl IHr|op e IH|items IH
                 |l ops cs IHl IHcs|c|v s ctx IHv IHs|id ctx|elts ctx IH
                 |elts ctx IH|k children IH] using expr_ind_nested;
    cbn [SafeEvalVisitor.visit visited];
    unfold SafeEvalVisitor.generic_visit; cbn [ast.expr_name].
  - apply runs_as_cons; [apply runs_as_check|]. intros _.
    apply runs_as_cons; [apply runs_as_check|]. intros _.
    by apply runs_as_visit_each.
  - apply runs_as_cons; [apply runs_as_check|]. intros _.
    apply runs_as_bind; [exact IHl|]. intros _.
    apply runs_as_cons; [apply runs_as_check|]. intros _. exact IHr.
  - apply runs_as_cons; [apply runs_as_check|]. intros _.
    apply runs_as_cons; [apply runs_as_check|]. intros _. exact IH.
  - apply runs_as_cons; [apply runs_as_check|]. intros _.
    apply runs_as_bind.
    + apply runs_as_visit_keys. eapply Forall_impl; [exact IH|].
      intros [[k|] v] [Hk _]; simpl in *; done.
    + intros _. apply (runs_as_visit_values _ visited).
      eapply Forall_impl; [exact IH|]. by intros [k v] [_ Hv].
  - apply runs_as_cons; [apply runs_as_check|]. intros _.
    apply runs_as_bind; [exact IHl|]. intros _.
    apply runs_as_bind; [apply runs_as_ops|]. intros _.
    by apply runs_as_visit_each.
  - apply runs_as_cons; [apply runs_as_check|]. intros _. apply runs_as_ret.
  - apply runs_as_cons; [apply runs_as_check|]. intros _.
    apply runs_as_bind; [exact IHv|]. intros _.
    apply runs_as_bind; [exact IHs|]. intros _. apply runs_as_check.
  - apply runs_as_visit_Name.
  - apply runs_as_cons; [apply runs_as_check|]. intros _.
    apply runs_as_bind; [by apply runs_as_visit_each|]. intros _.
    apply runs_as_check.
  - apply runs_as_cons; [apply runs_as_check|]. intros _.
    apply runs_as_bind; [by apply runs_as_visit_each|]. intros _.
    apply runs_as_check.
  - apply runs_as_cons; [apply runs_as_check|]. intros _.
    by apply runs_as_visit_each.
Qed.

Lemma visit_tree_runs_as tree :
  runs_as names (SafeEvalVisitor.visit_tree names tree)
    (match tree with ast.Expression body => "Expression" :: visited body end).
Proof.
  destruct tree as [body]. unfold SafeEvalVisitor.visit_tree.
  apply runs_as_cons; [apply runs_as_check|]. intros _.
  apply visit_runs_as.
Qed.

End Visitor.

(** ** A run of [eval_attr_logic] *)

Lemma is_Exception_true e : is_Exception e = true.
Proof. by destruct e. Qed.

Lemma fresh_unbound (h : gmap ref (gmap string value)) :
  h !! fresh (dom h) = None.
Proof. apply not_elem_of_dom, is_fresh. Qed.

Lemma M_bind_Return {A B} (m : M A) (k : A → M B) st a st' :
  m st = (Return a, st') → (m ≫= k) st = k a st'.
Proof. intros H. unfold mbind, M_bind. by rewrite H. Qed.

Lemma M_bind_Raise {A B} (m : M A) (k : A → M B) st e st' :
  m st = (Raise e, st') → (m ≫= k) st = (Raise e, st').
Proof. intros H. unfold mbind, M_bind. by rewrite H. Qed.

Lemma dict_copy_run r st d :
  heap st !! r = Some d →
  dict_copy r st
  = (Return (fresh (dom (heap st))),
     mkState (<[fresh (dom (heap st)) := d]> (heap st)) (owl_log st)).
Proof.
  intros H. unfold dict_copy, read_dict, new_dict, mbind, M_bind.
  by rewrite H.
Qed.

Lemma SafeAttrs_new_run r st d :
  heap st !! r = Some d →
  SafeAttrs.new r st
  = (Return (fresh (dom (heap st))),
     mkState (<[fresh (dom (heap st)) := d]> (heap st)) (owl_log st)).
Proof.
  intros H. unfold SafeAttrs.new, read_dict, new_dict, mbind, M_bind.
  by rewrite H.
Qed.

Lemma eval_run compiled globals builtins locals st d :
  heap st !! locals = Some d →
  eval compiled globals builtins locals st
  = (eval_expr (load_name globals builtins (SafeAttrs.__getitem__ d)) compiled,
     st).
Proof.
  intros H. unfold eval, read_dict, lift, mbind, M_bind. by rewrite H.
Qed.

Section Run.

Variable ast_parse : string → result ast.mod_.

(** The [try] block computes [policy_value]; it allocates the two working
    copies, leaves every dict object that existed before as it was, and
    writes nothing to the log. *)
Lemma eval_attr_logic_body_run expression attributes st d :
  heap st !! attributes = Some d →
  ∃ h', eval_attr_logic_body ast_parse expression attributes st
        = (truthy <$> policy_value ast_parse expression d,
           mkState h' (owl_log st))
        ∧ heap st ⊆ h'.
Proof.
  intros Hd. unfold eval_attr_logic_body, policy_value.
  destruct (ast_parse expression) as [tree|err] eqn:Hparse.
  2:{ exists (heap st). split; [|done].
      erewrite M_bind_Raise; [|done]. by destruct st. }
  erewrite M_bind_Return; [|done].
  erewrite M_bind_Return; [|by apply dict_copy_run].
  set (names := fresh (dom (heap st))).
  assert (Hnames : heap st !! names = None) by apply fresh_unbound.
  set (st1 := mkState (<[names := d]> (heap st)) (owl_log st)).
  destruct (visit_tree_runs_as names tree st1 d) as (d' & Hr & Hst);
    [by simpl; rewrite lookup_insert_eq|].
  destruct (SafeEvalVisitor.visit_tree names tree st1) as [r st2] eqn:Hvisit.
  simpl in Hr, Hst. subst st2. rewrite insert_insert_eq in Hvisit.
  assert (Hsub : heap st ⊆ <[names := d']> (heap st))
    by by apply insert_subseteq.
  replace (check_all _) with (validate tree) in Hr by by destruct tree.
  simpl. rewrite <- Hr.
  destruct r as [[]|err]; simpl.
  2:{ erewrite M_bind_Raise; [|done]. by eexists. }
  erewrite M_bind_Return; [|done].
  destruct (compile tree) as [compiled|err]; simpl.
  2:{ erewrite M_bind_Raise; [|done]. by eexists. }
  erewrite M_bind_Return; [|done].
  set (h2 := <[names := d']> (heap st)).
  assert (Hattr : h2 !! attributes = Some d).
  { unfold h2. rewrite lookup_insert_ne; [done|]. intros ->. congruence. }
  erewrite M_bind_Return; [|by apply SafeAttrs_new_run].
  simpl. set (locals := fresh (dom h2)).
  assert (Hlocals : h2 !! locals = None) by apply fresh_unbound.
  assert (heap st ⊆ <[locals := d]> h2).
  { etrans; [exact Hsub|]. by apply insert_subseteq. }
  destruct (eval_expr (load_name eval_globals eval_builtins
                         (SafeAttrs.__getitem__ d)) compiled)
    as [v|err] eqn:Hev.
  - erewrite M_bind_Return;
      [|erewrite eval_run; [by rewrite Hev | by simpl; rewrite lookup_insert_eq]].
    by eexists.
  - erewrite M_bind_Raise;
      [|erewrite eval_run; [by rewrite Hev | by simpl; rewrite lookup_insert_eq]].
    by eexists.
Qed.

Lemma eval_attr_logic_blank expression attributes st :
  blank expression = true →
  eval_attr_logic ast_parse expression attributes st = (Return true, st).
Proof. intros Hb. unfold eval_attr_logic. by rewrite guard_blank, Hb. Qed.

(** A run on a non-blank expression, when [attributes] is a dict with the
    items [d]. *)
Lemma eval_attr_logic_run expression attributes st d :
  blank expression = false →
  heap st !! attributes = Some d →
  ∃ h', eval_attr_logic ast_parse expression attributes st
        = (Return (match policy_value ast_parse expression d with
                   | Return v => truthy v
                   | Raise _ => false
                   end),
           mkState h'
             (owl_log st ++ match policy_value ast_parse expression d with
                            | Return _ => []
                            | Raise e => [e]
                            end))
        ∧ heap st ⊆ h'.
Proof.
  intros Hb Hd. unfold eval_attr_logic. rewrite guard_blank, Hb.
  destruct (eval_attr_logic_body_run expression attributes st d Hd)
    as (h' & Hrun & Hsub).
  exists h'. split; [|done]. unfold try_except. rewrite Hrun.
  destruct (policy_value ast_parse expression d) as [v|e]; simpl.
  - by rewrite app_nil_r.
  - by rewrite is_Exception_true.
Qed.

(** A run on a non-blank expression, when [attributes] is not a dict:
    [attributes.copy()] raises unless the parser has raised before. *)
Lemma eval_attr_logic_run_unbound expression attributes st :
  blank expression = false →
  heap st !! attributes = None →
  eval_attr_logic ast_parse expression attributes st
  = (Return false,
     mkState (heap st)
       (owl_log st ++ [match ast_parse expression with
                       | Return _ => AttributeError
                       | Raise e => e
                       end])).
Proof.
  intros Hb Hd. unfold eval_attr_logic. rewrite guard_blank, Hb.
  unfold try_except, eval_attr_logic_body.
  destruct (ast_parse expression) as [tree|e] eqn:Hparse.
  - erewrite M_bind_Return; [|done].
    rewrite (M_bind_Raise _ _ st AttributeError st);
      [done | by unfold dict_copy, read_dict, mbind, M_bind; rewrite Hd].
  - erewrite M_bind_Raise; [|done]. by rewrite is_Exception_true.
Qed.

End Run.

(** ** Trees that pass the visitor and [compile] *)

Lemma operator_not_allowed op :
  SafeEvalVisitor.allowed (ast.operator_name op) = false.
Proof. by destruct op. Qed.

Lemma other_expr_not_allowed k :
  SafeEvalVisitor.allowed (ast.other_expr_name k) = false.
Proof. by destruct k. Qed.

Lemma allowed_elem_of n :
  SafeEvalVisitor.allowed n = true ↔ n ∈ SafeEvalVisitor.ALLOWED_NODES.
Proof. unfold SafeEvalVisitor.allowed. by rewrite bool_decide_eq_true. Qed.

Lemma compile_each_Return l :
  compile_each compile_expr l = Return () →
  Forall (λ e, compile_expr e = Return ()) l.
Proof.
  induction l as [|e l IH]; simpl; [by constructor|].
  destruct (compile_expr e) as [[]|] eqn:He; simpl; [|done].
  intros H. constructor; [done | by apply IH].
Qed.

Lemma compile_items_Return items :
  compile_items compile_expr items = Return () →
  Forall (λ kv : option ast.expr * ast.expr,
            from_option (λ k, compile_expr k = Return ()) True kv.1
            ∧ compile_expr kv.2 = Return ()) items.
Proof.
  induction items as [|[[k|] v] items IH]; simpl; [by constructor| |].
  - destruct (compile_expr k) as [[]|] eqn:Hk; simpl; [|done].
    destruct (compile_expr v) as [[]|] eqn:Hv; simpl; [|done].
    intros H. constructor; [done | by apply IH].
  - destruct (compile_expr v) as [[]|] eqn:Hv; simpl; [|done].
    intros H. constructor; [done | by apply IH].
Qed.

Lemma compile_ctx_Return ctx : compile_ctx ctx = Return () → ctx = ast.Load.
Proof. by destruct ctx. Qed.

Lemma all_allowed_children (f g : ast.expr → list string) (comp : ast.expr → Prop)
    l :
  Forall (λ e, all_allowed (f e) → comp e → all_allowed (g e)) l →
  all_allowed (concat (map f l)) → Forall comp l →
  all_allowed (concat (map g l)).
Proof.
  induction 1 as [|e l He _ IH]; simpl; [done|].
  rewrite !Forall_app. intros [? ?]. inversion 1; subst. split; auto.
Qed.

(** A tree that the visitor lets through and that [compile] accepts has no
    node at all whose class is off the allow-list. *)
Lemma visited_compiled_walk e :
  all_allowed (visited e) → compile_expr e = Return () → all_allowed (walk e).
Proof.
  induction e as [op values IH|l op r IHl IHr|op e IH|items IH
                 |l ops cs IHl IHcs|c|v s ctx IHv IHs|id ctx|elts ctx IH
                 |elts ctx IH|k children IH] using expr_ind_nested;
    cbn [visited walk compile_expr ast.expr_name];
    rewrite ?Forall_cons, ?Forall_app, ?Forall_cons.
  - intros (? & ? & Hv). destruct (_ <? _)%nat; [done|].
    intros Hc%compile_each_Return. repeat split; [done..|].
    by apply (all_allowed_children visited walk
                (λ e, compile_expr e = Return ())).
  - intros (_ & _ & Hop & _). by rewrite operator_not_allowed in Hop.
  - intros (? & ? & Hv) Hc. repeat split; auto.
  - intros (? & Hk & Hv) Hc%compile_items_Return. split; [done|split].
    + clear Hv. induction IH as [|[[k|] v] items [Hik _] _ IHi]; simpl in *;
        [done| |]; inversion Hc as [|?? [? ?]]; subst; simpl in *.
      * rewrite !Forall_app in *. destruct Hk. split; auto.
      * auto.
    + clear Hk. induction IH as [|[k v] items [_ Hiv] _ IHi]; simpl in *;
        [done|]; inversion Hc as [|?? [? ?]]; subst; simpl in *.
      rewrite !Forall_app in *. destruct Hv. split; auto.
  - intros (? & Hl & Hops & Hcs). destruct (bool_decide _); [done|].
    destruct (negb _); [done|].
    destruct (compile_each compile_expr cs) as [[]|] eqn:Hc; simpl; [|done].
    apply compile_each_Return in Hc. intros Hcl. repeat split; auto.
    by apply (all_allowed_children visited walk
                (λ e, compile_expr e = Return ())).
  - done.
  - intros (? & Hv & Hs & Hctx).
    destruct (compile_expr s) as [[]|] eqn:Hcs; simpl; [|done].
    destruct (compile_expr v) as [[]|] eqn:Hcv; simpl; [|done].
    intros _. destruct Hctx. repeat split; auto.
  - intros _. destruct (bool_decide _); [done|].
    intros ->%compile_ctx_Return. by repeat constructor.
  - intros (? & Hv & Hctx).
    destruct (compile_each compile_expr elts) as [[]|] eqn:Hc; simpl; [|done].
    apply compile_each_Return in Hc. intros _. destruct Hctx.
    repeat split; [|done..].
    by apply (all_allowed_children visited walk
                (λ e, compile_expr e = Return ())).
  - intros (? & Hv & Hctx).
    destruct (compile_each compile_expr elts) as [[]|] eqn:Hc; simpl; [|done].
    apply compile_each_Return in Hc. intros _. destruct Hctx.
    repeat split; [|done..].
    by apply (all_allowed_children visited walk
                (λ e, compile_expr e = Return ())).
  - intros (Hk & _). by rewrite other_expr_not_allowed in Hk.
Qed.

(** ** The exceptions of a dict display

    Building the dict raises what one of the operands raises, or
    [TypeError]. *)

Lemma raises_only_bind {A B} (P : exn → Prop) (m : result A) (k : A → result B) :
  raises_only P m → (∀ a, raises_only P (k a)) → raises_only P (m ≫= k).
Proof.
  intros Hm Hk. destruct m as [a|e]; [apply Hk|].
  intros e'. simpl. intros [= <-]. by apply Hm.
Qed.

Lemma raises_only_fmap {A B} (P : exn → Prop) (f : A → B) (m : result A) :
  raises_only P m → raises_only P (f <$> m).
Proof.
  intros Hm. destruct m as [a|e]; [done|].
  intros e'. simpl. intros [= <-]. by apply Hm.
Qed.

Lemma raises_only_Return {A} (P : exn → Prop) (a : A) : raises_only P (Return a).
Proof. done. Qed.

Lemma modelled_raises_only {A} (r : result A) :
  modelled r ↔ raises_only (λ e, e ≠ Unmodelled) r.
Proof.
  unfold modelled, raises_only. split.
  - intros Hr e -> ->. done.
  - intros Hr He. by apply (Hr _ He).
Qed.

Section DictDisplay.

Variable P : exn → Prop.
Hypothesis P_TypeError : P TypeError.

Lemma dict_setitem_raises d k v : raises_only P (dict_setitem d k v).
Proof.
  unfold dict_setitem. destruct (hashable k); [done|]. by intros e [= <-].
Qed.

Lemma dict_update_raises d m : raises_only P (dict_update d m).
Proof. destruct m; simpl; try done; by intros e [= <-]. Qed.

Lemma build_map_raises d kvs : raises_only P (build_map d kvs).
Proof.
  revert d. induction kvs as [|[k v] kvs IH]; intros d; simpl; [done|].
  apply raises_only_bind; [apply dict_setitem_raises | done].
Qed.

Lemma chunk_values_raises chunk :
  Forall (λ kv, raises_only P kv.1 ∧ raises_only P kv.2) chunk →
  raises_only P (chunk_values chunk).
Proof.
  induction 1 as [|[k v] chunk [Hk Hv] _ IH]; simpl in *; [done|].
  apply raises_only_bind; [done|]. intros key.
  apply raises_only_bind; [done|]. intros val.
  apply raises_only_bind; [done|]. done.
Qed.

Lemma map_add_each_raises d chunk :
  Forall (λ kv, raises_only P kv.1 ∧ raises_only P kv.2) chunk →
  raises_only P (map_add_each d chunk).
Proof.
  intros H. revert d.
  induction H as [|[k v] chunk [Hk Hv] _ IH]; intros d; simpl in *; [done|].
  apply raises_only_bind; [done|]. intros key.
  apply raises_only_bind; [done|]. intros val.
  apply raises_only_bind; [apply dict_setitem_raises | done].
Qed.

Lemma subdict_raises chunk :
  Forall (λ kv, raises_only P kv.1 ∧ raises_only P kv.2) chunk →
  raises_only P (subdict chunk).
Proof.
  intros H. unfold subdict. destruct (_ <? _)%nat.
  - by apply map_add_each_raises.
  - apply raises_only_bind; [by apply chunk_values_raises|].
    intros kvs. apply build_map_raises.
Qed.

Lemma flush_raises chunk d :
  Forall (λ kv, raises_only P kv.1 ∧ raises_only P kv.2) chunk →
  raises_only P (flush chunk d).
Proof.
  intros H. unfold flush. destruct chunk as [|kv chunk]; [done|].
  apply raises_only_bind; [by apply subdict_raises|]. intros sub.
  destruct d as [d0|]; [|done].
  apply raises_only_fmap, dict_update_raises.
Qed.

Lemma build_dict_raises items pending d :
  Forall (λ kv, from_option (raises_only P) True kv.1 ∧ raises_only P kv.2)
    items →
  Forall (λ kv, raises_only P kv.1 ∧ raises_only P kv.2) pending →
  raises_only P (build_dict items pending d).
Proof.
  intros H. revert pending d.
  induction H as [|[[k|] v] items [Hk Hv] _ IH]; intros pending d Hp;
    simpl in *.
  - apply raises_only_bind; [by apply flush_raises | done].
  - assert (Hp' : Forall (λ kv, raises_only P kv.1 ∧ raises_only P kv.2)
                    (pending ++ [(k, v)])).
    { apply Forall_app. split; [done|]. by repeat constructor. }
    destruct (_ <? _)%nat; [|by apply IH].
    apply raises_only_bind; [by apply flush_raises|]. intros d1.
    by apply IH.
  - apply raises_only_bind; [by apply flush_raises|]. intros d1.
    apply raises_only_bind; [done|]. intros mapping.
    apply raises_only_bind; [apply dict_update_raises|]. intros d2.
    by apply IH.
Qed.

Lemma eval_items_raises (ev : ast.expr → result value) items :
  Forall (λ kv : option ast.expr * ast.expr,
            from_option (λ k, raises_only P (ev k)) True kv.1
            ∧ raises_only P (ev kv.2)) items →
  raises_only P (eval_items ev items).
Proof.
  intros H. unfold eval_items. apply build_dict_raises; [|done].
  induction H as [|[[k|] v] items [Hk Hv] _ IH]; simpl in *;
    by constructor.
Qed.

End DictDisplay.

(** ** Validated trees stay within the modelled syntax *)

Lemma value_ind_nested (P : value → Prop) :
  P VNone → (∀ b, P (VBool b)) → (∀ n, P (VInt n)) → (∀ s, P (VStr s)) →
  (∀ items, Forall P items → P (VList items)) →
  (∀ items, Forall P items → P (VTuple items)) →
  (∀ items, Forall (λ kv, P kv.1 ∧ P kv.2) items → P (VDict items)) →
  ∀ v, P v.
Proof.
  intros HNone HBool HInt HStr HList HTuple HDict.
  fix IH 1. intros v.
  assert (Hall : ∀ l, Forall P l).
  { fix IHl 1. intros [|x l]; constructor; [apply IH | apply IHl]. }
  destruct v.
  - exact HNone.
  - apply HBool.
  - apply HInt.
  - apply HStr.
  - apply HList, Hall.
  - apply HTuple, Hall.
  - apply HDict. revert items. fix IHi 1.
    intros [|[k v] items]; constructor; [split; apply IH | apply IHi].
Qed.

(** Ordering raises nothing but [TypeError]. *)
Lemma py_order_Raise op a b e : py_order op a b = Raise e → e = TypeError.
Proof.
  revert b. induction a as [| | | |xs IH|xs IH|] using value_ind_nested;
    intros w; destruct w; simpl; try congruence.
  - revert items. induction IH as [|x xs Hx _ IHxs]; intros [|y ys]; simpl;
      try done.
    destruct (py_eq x y); [apply IHxs | apply Hx].
  - revert items. induction IH as [|x xs Hx _ IHxs]; intros [|y ys]; simpl;
      try done.
    destruct (py_eq x y); [apply IHxs | apply Hx].
Qed.

Lemma py_contains_Raise c x e : py_contains c x = Raise e → e = TypeError.
Proof.
  destruct c; simpl; try congruence.
  - destruct x; congruence.
  - destruct (hashable x); congruence.
Qed.

Lemma seq_index_Raise len i e : seq_index len i = Raise e → e = IndexError.
Proof. unfold seq_index. destruct (_ && _); congruence. Qed.

Lemma py_getitem_Raise c i e :
  py_getitem c i = Raise e → e = TypeError ∨ e = IndexError ∨ e = KeyError.
Proof.
  assert (Hseq : ∀ (len : nat) (k : nat → result value),
            (∀ j e, k j = Raise e → e = IndexError) →
            ∀ n e, (j ← seq_index len n; k j) = Raise e →
                   e = TypeError ∨ e = IndexError ∨ e = KeyError).
  { intros len k Hk n e'. destruct (seq_index len n) as [j|e0] eqn:Hj; simpl.
    - intros ->%Hk. auto.
    - intros [= <-]. apply seq_index_Raise in Hj as ->. auto. }
  destruct c; simpl; try (intros [= <-]; auto).
  - destruct (as_int i); [|intros [= <-]; auto].
    apply Hseq. intros j e'. by destruct (str_chars s !! j); simpl; intros [=].
  - destruct (as_int i); [|intros [= <-]; auto].
    apply Hseq. intros j e'. by destruct (items !! j); simpl; intros [=].
  - destruct (as_int i); [|intros [= <-]; auto].
    apply Hseq. intros j e'. by destruct (items !! j); simpl; intros [=].
  - destruct (hashable i); [|intros [= <-]; auto].
    destruct (assoc_get py_eq i items); simpl; intros [= <-]; auto.
Qed.

Lemma modelled_bind {A B} (m : result A) (k : A → result B) :
  modelled m → (∀ a, modelled (k a)) → modelled (m ≫= k).
Proof.
  intros Hm Hk. destruct m as [a|e]; [apply Hk|].
  unfold modelled in *. simpl. congruence.
Qed.

Lemma modelled_fmap {A B} (f : A → B) (m : result A) :
  modelled m → modelled (f <$> m).
Proof. destruct m; [done|]. unfold modelled. simpl. congruence. Qed.

Lemma modelled_Return {A} (a : A) : modelled (Return a).
Proof. done. Qed.

Lemma compare_op_modelled op l r :
  SafeEvalVisitor.allowed (ast.cmpop_name op) = true →
  modelled (compare_op op l r).
Proof.
  destruct op; simpl; try done; intros _; apply modelled_fmap.
  1-4: by intros ?%py_order_Raise.
  1-2: by intros ?%py_contains_Raise.
Qed.

Section Modelled.

Variable ev : ast.expr → result value.

Lemma eval_boolop_modelled op values :
  Forall (λ e, modelled (ev e)) values → modelled (eval_boolop op ev values).
Proof.
  induction 1 as [|e l He Hl IH]; simpl; [done|].
  destruct l; [done|]. apply modelled_bind; [done|].
  intros v. by destruct (decides op v).
Qed.

Lemma eval_compare_modelled l ops cs :
  all_allowed (map ast.cmpop_name ops) → Forall (λ e, modelled (ev e)) cs →
  modelled (eval_compare ev l ops cs).
Proof.
  intros Hops Hcs. revert l ops Hops.
  induction Hcs as [|c cs' Hc Hcs' IH]; intros l [|op ops] Hops;
    [unfold modelled; try destruct ops; by simpl..|].
  inversion Hops; subst.
  assert (Hstep : ∀ (k : value → value → result value),
            (∀ r b, modelled (k r b)) →
            modelled (r ← ev c; b ← compare_op op l r; k r b)).
  { intros k Hk. apply modelled_bind; [done|]. intros r.
    apply modelled_bind; [by apply compare_op_modelled | apply Hk]. }
  destruct ops as [|op' ops], cs' as [|c' cs'].
  - apply modelled_bind; [done|]. intros r. by apply compare_op_modelled.
  - apply (Hstep (λ r b, if truthy b then _ else _)).
    intros r b. by destruct (truthy b).
  - apply (Hstep (λ r b, if truthy b then _ else _)).
    intros r b. destruct (truthy b); [by destruct ops | done].
  - apply (Hstep (λ r b, if truthy b
                         then eval_compare ev r (op' :: ops) (c' :: cs')
                         else Return b)).
    intros r b. destruct (truthy b); [by apply IH | done].
Qed.

Lemma eval_each_modelled l :
  Forall (λ e, modelled (ev e)) l → modelled (eval_each ev l).
Proof.
  induction 1 as [|e l He _ IH]; simpl; [done|].
  apply modelled_bind; [done|]. intros v.
  apply modelled_bind; [done|]. done.
Qed.

Lemma eval_items_modelled items :
  Forall (λ kv : option ast.expr * ast.expr,
            from_option (λ k, modelled (ev k)) True kv.1
            ∧ modelled (ev kv.2)) items →
  modelled (eval_items ev items).
Proof.
  intros H. apply modelled_raises_only, eval_items_raises; [done|].
  eapply Forall_impl; [exact H|].
  intros [[k|] v] [Hk Hv]; simpl in *; by rewrite <- !modelled_raises_only.
Qed.

End Modelled.

Lemma Forall_children (f : ast.expr → list string) (Q : ast.expr → Prop) l :
  Forall (λ e, all_allowed (f e) → Q e) l →
  all_allowed (concat (map f l)) → Forall Q l.
Proof.
  induction 1 as [|e l He _ IH]; simpl; [done|].
  rewrite Forall_app. intros [? ?]. constructor; auto.
Qed.

Lemma Forall_items (f : ast.expr → list string) (Q : ast.expr → Prop)
    (items : list (option ast.expr * ast.expr)) :
  Forall (λ kv, from_option (λ k, all_allowed (f k) → Q k) True kv.1
                ∧ (all_allowed (f kv.2) → Q kv.2)) items →
  all_allowed (concat (map (λ kv, from_option f [] kv.1) items)) →
  all_allowed (concat (map (λ kv, f kv.2) items)) →
  Forall (λ kv, from_option Q True kv.1 ∧ Q kv.2) items.
Proof.
  induction 1 as [|[[k|] v] items [Hk Hv] _ IH]; simpl in *; [done| |];
    rewrite ?Forall_app; intros Hks [? ?]; constructor; simpl.
  - destruct Hks. auto.
  - destruct Hks. auto.
  - auto.
  - auto.
Qed.

(** The placeholder outcome of [eval_expr] cannot occur on a tree that the
    visitor has let through. *)
Lemma visit_Return_modelled lookup e :
  (∀ id, modelled (lookup id)) →
  all_allowed (visited e) → modelled (eval_expr lookup e).
Proof.
  intros Hlookup.
  induction e as [op values IH|l op r IHl IHr|op e IH|items IH
                 |l ops cs IHl IHcs|c|v s ctx IHv IHs|id ctx|elts ctx IH
                 |elts ctx IH|k children IH] using expr_ind_nested;
    cbn [visited eval_expr];
    rewrite ?Forall_cons, ?Forall_app, ?Forall_cons.
  - intros (_ & _ & Hv). apply eval_boolop_modelled.
    by apply (Forall_children visited).
  - intros (_ & _ & Hop & _). by rewrite operator_not_allowed in Hop.
  - intros (_ & Hop & He). destruct op; try done.
    apply modelled_bind; [auto | done].
  - intros (_ & Hk & Hv). apply modelled_fmap, eval_items_modelled.
    by apply (Forall_items visited).
  - intros (_ & Hl & Hops & Hcs). apply modelled_bind; [auto|]. intros lv.
    apply eval_compare_modelled; [done|].
    by apply (Forall_children visited).
  - done.
  - intros (_ & Hv & Hs & _). apply modelled_bind; [auto|]. intros cv.
    apply modelled_bind; [auto|]. intros iv Hr%py_getitem_Raise.
    by destruct Hr as [?|[?|?]].
  - intros _. apply Hlookup.
  - intros (_ & Hv & _). apply modelled_fmap, eval_each_modelled.
    by apply (Forall_children visited).
  - intros (_ & Hv & _). apply modelled_fmap, eval_each_modelled.
    by apply (Forall_children visited).
  - intros (Hk & _). by rewrite other_expr_not_allowed in Hk.
Qed.

(** ** Equations of the monad and of the comparison chain *)

Lemma bind_Return {A B} (a : A) (k : A → result B) : (Return a ≫= k) = k a.
Proof. done. Qed.

Lemma bind_Raise {A B} (e : exn) (k : A → result B) : (Raise e ≫= k) = Raise e.
Proof. done. Qed.

Lemma eval_compare_cons ev l op ops c cs :
  eval_compare ev l (op :: ops) (c :: cs)
  = (r ← ev c;
     b ← compare_op op l r;
     if bool_decide (ops = []) && bool_decide (cs = []) then Return b
     else if truthy b then eval_compare ev r ops cs else Return b).
Proof.
  destruct ops, cs; simpl; try done.
  destruct (ev c) as [r|]; simpl; [|done]. by destruct (compare_op op l r).
Qed.

(** ** Evaluation depends on the resolution of names only *)

Section Extensional.

Variables f g : ast.expr → result value.

Lemma eval_boolop_ext op l :
  Forall (λ e, f e = g e) l → eval_boolop op f l = eval_boolop op g l.
Proof.
  induction 1 as [|e l He _ IH]; simpl; [done|].
  rewrite He. destruct l; [done|]. by rewrite IH.
Qed.

Lemma eval_compare_ext l ops cs :
  Forall (λ e, f e = g e) cs → eval_compare f l ops cs = eval_compare g l ops cs.
Proof.
  intros H. revert l ops.
  induction H as [|c cs He _ IH]; intros l [|op ops]; [done..|].
  rewrite !eval_compare_cons, He.
  destruct (g c) as [r|]; [|done]. rewrite !bind_Return.
  destruct (compare_op op l r) as [b|]; [|done]. rewrite !bind_Return.
  by rewrite IH.
Qed.

Lemma eval_each_ext l :
  Forall (λ e, f e = g e) l → eval_each f l = eval_each g l.
Proof.
  induction 1 as [|e l He _ IH]; simpl; [done|]. by rewrite He, IH.
Qed.

Lemma eval_items_ext items :
  Forall (λ kv : option ast.expr * ast.expr,
            from_option (λ k, f k = g k) True kv.1 ∧ f kv.2 = g kv.2) items →
  eval_items f items = eval_items g items.
Proof.
  intros H. unfold eval_items. f_equal.
  induction H as [|[[k|] v] items [Hk Hv] _ IH]; simpl in *; [done| |].
  - by rewrite Hk, Hv, IH.
  - by rewrite Hv, IH.
Qed.

End Extensional.

Lemma eval_expr_ext (lookup lookup' : string → result value) e :
  (∀ id, lookup id = lookup' id) → eval_expr lookup e = eval_expr lookup' e.
Proof.
  intros Hext.
  induction e as [op values IH|l op r IHl IHr|op e IH|items IH
                 |l ops cs IHl IHcs|c|v s ctx IHv IHs|id ctx|elts ctx IH
                 |elts ctx IH|k children IH] using expr_ind_nested;
    cbn [eval_expr]; try done.
  - by apply eval_boolop_ext.
  - by rewrite IH.
  - by rewrite (eval_items_ext _ _ _ IH).
  - rewrite IHl. destruct (eval_expr lookup' l) as [lv|]; [|done].
    rewrite !bind_Return. by apply eval_compare_ext.
  - by rewrite IHv, IHs.
  - by rewrite (eval_each_ext _ _ _ IH).
  - by rewrite (eval_each_ext _ _ _ IH).
Qed.

(** ** The compiled expression

    Evaluating the optimised tree is evaluating the checked tree with
    [__debug__] read as the constant. *)

Section Mapped.

Variable ev : ast.expr → result value.
Variable f : ast.expr → ast.expr.

Lemma eval_boolop_map op l :
  eval_boolop op ev (map f l) = eval_boolop op (λ e, ev (f e)) l.
Proof.
  induction l as [|e l IH]; simpl; [done|].
  destruct l as [|e' l]; [done|]. simpl in *. by rewrite IH.
Qed.

Lemma eval_compare_map l ops cs :
  eval_compare ev l ops (map f cs) = eval_compare (λ e, ev (f e)) l ops cs.
Proof.
  revert l ops. induction cs as [|c cs IH]; intros l [|op ops]; [done..|].
  cbn [map]. rewrite !eval_compare_cons.
  destruct (ev (f c)) as [r|]; [|done]. rewrite !bind_Return.
  destruct (compare_op op l r) as [b|]; [|done]. rewrite !bind_Return.
  rewrite IH. by destruct cs.
Qed.

Lemma eval_each_map l :
  eval_each ev (map f l) = eval_each (λ e, ev (f e)) l.
Proof. induction l as [|e l IH]; simpl; [done|]. by rewrite IH. Qed.

Lemma eval_items_map items :
  eval_items ev
    (map (λ kv, (from_option (λ k, Some (f k)) None kv.1, f kv.2)) items)
  = eval_items (λ e, ev (f e)) items.
Proof.
  unfold eval_items. f_equal.
  induction items as [|[[k|] v] items IH]; simpl; [done|by rewrite IH..].
Qed.

End Mapped.

Lemma compiled_children (Q : ast.expr → Prop) l :
  Forall (λ e, compile_expr e = Return () → Q e) l →
  Forall (λ e, compile_expr e = Return ()) l → Forall Q l.
Proof.
  induction 1 as [|e l He _ IH]; [done|]. inversion 1; subst.
  constructor; auto.
Qed.

Lemma compiled_items (Q : ast.expr → Prop)
    (items : list (option ast.expr * ast.expr)) :
  Forall (λ kv, from_option (λ k, compile_expr k = Return () → Q k) True kv.1
                ∧ (compile_expr kv.2 = Return () → Q kv.2)) items →
  Forall (λ kv, from_option (λ k, compile_expr k = Return ()) True kv.1
                ∧ compile_expr kv.2 = Return ()) items →
  Forall (λ kv, from_option Q True kv.1 ∧ Q kv.2) items.
Proof.
  induction 1 as [|[[k|] v] items [Hk Hv] _ IH]; [done| |];
    inversion 1 as [|?? [? ?]]; subst; constructor; simpl in *; auto.
Qed.

Lemma eval_expr_optimize lookup e :
  compile_expr e = Return () →
  eval_expr lookup (optimize e) = eval_expr (folded lookup) e.
Proof.
  induction e as [op values IH|l op r IHl IHr|op e IH|items IH
                 |l ops cs IHl IHcs|c|v s ctx IHv IHs|id ctx|elts ctx IH
                 |elts ctx IH|k children IH] using expr_ind_nested;
    cbn [compile_expr optimize eval_expr]; try done.
  - destruct (_ <? _)%nat; [done|]. intros Hc%compile_each_Return.
    rewrite eval_boolop_map. apply eval_boolop_ext.
    by apply (compiled_children _ values IH).
  - destruct op; try done. intros Hc. by rewrite IH.
  - intros Hc%compile_items_Return. rewrite eval_items_map.
    f_equal. apply eval_items_ext. by apply (compiled_items _ items IH).
  - destruct (bool_decide _); [done|]. destruct (negb _); [done|].
    destruct (compile_each compile_expr cs) as [[]|] eqn:Hc; [|done].
    rewrite bind_Return. intros Hl. apply compile_each_Return in Hc.
    rewrite (IHl Hl). destruct (eval_expr (folded lookup) l) as [lv|]; [|done].
    rewrite !bind_Return, eval_compare_map. apply eval_compare_ext.
    by apply (compiled_children _ cs IHcs).
  - destruct (compile_expr s) as [[]|] eqn:Hs; [|done]. rewrite bind_Return.
    destruct (compile_expr v) as [[]|] eqn:Hv; [|done]. rewrite bind_Return.
    intros _. by rewrite IHv, IHs.
  - destruct (bool_decide _); [done|]. intros ->%compile_ctx_Return.
    unfold folded. by destruct (String.eqb id "__debug__").
  - destruct (compile_each compile_expr elts) as [[]|] eqn:Hc; [|done].
    apply compile_each_Return in Hc. intros _.
    rewrite eval_each_map. f_equal. apply eval_each_ext.
    by apply (compiled_children _ elts IH).
  - destruct (compile_each compile_expr elts) as [[]|] eqn:Hc; [|done].
    apply compile_each_Return in Hc. intros _.
    rewrite eval_each_map. f_equal. apply eval_each_ext.
    by apply (compiled_children _ elts IH).
Qed.

(** With a [SafeAttrs] object as locals, a name resolves to its attribute,
    or to [None]; the globals and the builtins table are not consulted. *)
Lemma load_name_SafeAttrs globals builtins d id :
  load_name globals builtins (SafeAttrs.__getitem__ d) id
  = Return (default VNone (d !! id)).
Proof.
  unfold load_name, SafeAttrs.__getitem__, SafeAttrs.__missing__.
  by destruct (d !! id).
Qed.

(** With a plain [dict] as locals, a name that it does not bind would be
    looked up in the globals and then in the builtins table. *)
Lemma load_name_dict_builtins globals builtins d id v :
  d !! id = None → globals !! id = None → builtins !! id = Some v →
  load_name globals builtins (dict_getitem d) id = Return v.
Proof.
  intros Hd Hg Hb. unfold load_name, dict_getitem. by rewrite Hd, Hg, Hb.
Qed.

(** ** Truthiness *)

Lemma truthy_false_iff v : truthy v = false ↔ v ∈ falsy_values.
Proof.
  unfold falsy_values. rewrite !elem_of_cons, elem_of_nil.
  destruct v as [|[]|n|s|items|items|items]; simpl;
    rewrite ?negb_false_iff, ?Z.eqb_eq, ?String.eqb_eq, ?bool_decide_eq_true;
    intuition congruence.
Qed.

(** ** Membership *)

Lemma prefix_spec sub s :
  String.prefix sub s = true ↔ ∃ post, s = sub +:+ post.
Proof.
  revert s. induction sub as [|c sub IH]; intros s.
  - destruct s; simpl; (split; [by eexists | done]).
  - destruct s as [|c' s]; simpl.
    + split; [done | by intros [? ?]].
    + destruct (ascii_dec c c') as [->|Hne].
      * rewrite IH. split; intros [post Hpost]; exists post.
        -- by rewrite Hpost.
        -- change (String c' s = String c' (sub +:+ post)) in Hpost.
           congruence.
      * split; [done|]. intros [post Hpost].
        change (String c' s = String c (sub +:+ post)) in Hpost. congruence.
Qed.

Lemma str_contains_spec sub s :
  str_contains sub s = true ↔ ∃ pre post, s = pre +:+ sub +:+ post.
Proof.
  induction s as [|c s IH]; cbn [str_contains];
    rewrite orb_true_iff, prefix_spec.
  - split.
    + intros [[post ->]|?]; [by exists EmptyString, post | done].
    + intros (pre & post & H). left. destruct pre; [by exists post | done].
  - rewrite IH. split.
    + intros [[post ->]|(pre & post & ->)];
        [by exists EmptyString, post | by exists (String c pre), post].
    + intros ([|c' pre] & post & H); [left; by exists post|].
      right. exists pre, post.
      change (String c s = String c' (pre +:+ sub +:+ post)) in H.
      congruence.
Qed.

Lemma existsb_py_eq x items :
  existsb (λ e, py_eq e x) items = true ↔ ∃ e, e ∈ items ∧ py_eq e x = true.
Proof.
  induction items as [|y items IH]; simpl.
  - split; [done | by intros (? & ?%elem_of_nil & _)].
  - rewrite orb_true_iff, IH. split.
    + intros [?|(e & ? & ?)]; [exists y | exists e]; by rewrite elem_of_cons; auto.
    + intros (e & [->|?]%elem_of_cons & ?); [by left | right; by exists e].
Qed.

Lemma assoc_get_py_eq x (items : list (value * value)) :
  is_Some (assoc_get py_eq x items)
  ↔ ∃ k v, (k, v) ∈ items ∧ py_eq k x = true.
Proof.
  induction items as [|[k v] items IH]; simpl.
  - split; [by intros [? ?] | by intros (? & ? & ?%elem_of_nil & _)].
  - destruct (py_eq k x) eqn:Hk.
    + split; [|by eauto]. intros _. exists k, v. by rewrite elem_of_cons; auto.
    + rewrite IH. split.
      * intros (k' & v' & ? & ?). exists k', v'. by rewrite elem_of_cons; auto.
      * intros (k' & v' & [[= -> ->]|?]%elem_of_cons & ?); [congruence|].
        by exists k', v'.
Qed.

(** ** The fail-closed wrapper *)

Section Policy.

Variable ast_parse : string → result ast.mod_.

(** The visitor, run on any working copy, raises what [validate] raises. *)
Lemma visit_tree_validate names tree st d :
  heap st !! names = Some d →
  (λ _, ()) <$> (SafeEvalVisitor.visit_tree names tree st).1 = validate tree.
Proof.
  intros Hd. destruct (visit_tree_runs_as names tree st d Hd) as (? & Hr & _).
  rewrite Hr. by destruct tree.
Qed.

Lemma visit_tree_Raise names tree st d e :
  heap st !! names = Some d →
  (SafeEvalVisitor.visit_tree names tree st).1 = Raise e →
  validate tree = Raise e.
Proof.
  intros Hd He. rewrite <- (visit_tree_validate names tree st d Hd).
  by rewrite He.
Qed.

Lemma policy_value_parse_Raise expression d e :
  ast_parse expression = Raise e →
  policy_value ast_parse expression d = Raise e.
Proof. intros H. unfold policy_value. by rewrite H. Qed.

Lemma policy_value_validate_Raise expression d tree e :
  ast_parse expression = Return tree → validate tree = Raise e →
  policy_value ast_parse expression d = Raise e.
Proof. intros H Hv. unfold policy_value. rewrite H. simpl. by rewrite Hv. Qed.

Lemma policy_value_stage_Raise expression d tree e :
  ast_parse expression = Return tree →
  (_ ← validate tree; compile tree) = Raise e →
  policy_value ast_parse expression d = Raise e.
Proof.
  intros H Hs. unfold policy_value. rewrite H.
  change (Return tree ≫= ?k) with (k tree). cbv beta.
  destruct (validate tree) as [[]|e'].
  - change (Return () ≫= ?k) with (k ()) in *. cbv beta in *.
    by rewrite Hs.
  - change (Raise e' ≫= ?k) with (@Raise ast.expr e') in Hs.
    by injection Hs as ->.
Qed.

Lemma policy_value_compile_Raise expression d tree e :
  ast_parse expression = Return tree → compile tree = Raise e →
  ∃ e', policy_value ast_parse expression d = Raise e'.
Proof.
  intros H Hc. unfold policy_value. rewrite H. simpl.
  destruct (validate tree) as [[]|e']; simpl; [|by eexists].
  rewrite Hc. by eexists.
Qed.

Lemma policy_value_eval expression d tree compiled :
  ast_parse expression = Return tree → validate tree = Return () →
  compile tree = Return compiled →
  policy_value ast_parse expression d
  = eval_expr (load_name eval_globals eval_builtins (SafeAttrs.__getitem__ d))
      compiled.
Proof.
  intros H Hv Hc. unfold policy_value. rewrite H. simpl. rewrite Hv. simpl.
  by rewrite Hc.
Qed.

Lemma policy_value_Return expression d v :
  policy_value ast_parse expression d = Return v →
  ∃ tree compiled,
    ast_parse expression = Return tree ∧ validate tree = Return ()
    ∧ compile tree = Return compiled
    ∧ eval_expr (load_name eval_globals eval_builtins
                   (SafeAttrs.__getitem__ d)) compiled = Return v.
Proof.
  unfold policy_value.
  destruct (ast_parse expression) as [tree|]; simpl; [|done].
  destruct (validate tree) as [[]|] eqn:Hv; simpl; [|done].
  destruct (compile tree) as [compiled|] eqn:Hc; simpl; [|done].
  intros He. by exists tree, compiled.
Qed.

(** C1: [eval_attr_logic] always returns a boolean, never an exception.
    On a non-blank expression it returns [False] whenever [ast.parse]
    raises, whenever the visitor raises on the parsed tree, whenever
    [compile] rejects the tree and whenever the evaluation of the compiled
    tree raises; and it returns [True] only when all four stages succeed
    and the evaluated value is truthy. *)
Theorem eval_attr_logic_fail_closed expression attributes st :
  (∃ b, (eval_attr_logic ast_parse expression attributes st).1 = Return b)
  ∧ (blank expression = false →
     (∀ e, ast_parse expression = Raise e →
        (eval_attr_logic ast_parse expression attributes st).1 = Return false)
     ∧ (∀ tree names st1 d1 e,
          ast_parse expression = Return tree →
          heap st1 !! names = Some d1 →
          (SafeEvalVisitor.visit_tree names tree st1).1 = Raise e →
          (eval_attr_logic ast_parse expression attributes st).1
          = Return false)
     ∧ (∀ tree e,
          ast_parse expression = Return tree → compile tree = Raise e →
          (eval_attr_logic ast_parse expression attributes st).1
          = Return false)
     ∧ (∀ tree compiled d e,
          ast_parse expression = Return tree →
          compile tree = Return compiled →
          heap st !! attributes = Some d →
          eval_expr (load_name eval_globals eval_builtins
                       (SafeAttrs.__getitem__ d)) compiled = Raise e →
          (eval_attr_logic ast_parse expression attributes st).1
          = Return false)
     ∧ ((eval_attr_logic ast_parse expression attributes st).1
        = Return true →
        ∃ tree compiled d v,
          ast_parse expression = Return tree
          ∧ validate tree = Return ()
          ∧ compile tree = Return compiled
          ∧ heap st !! attributes = Some d
          ∧ eval_expr (load_name eval_globals eval_builtins
                         (SafeAttrs.__getitem__ d)) compiled = Return v
          ∧ truthy v = true)).
Proof.
  destruct (blank expression) eqn:Hb.
  { rewrite eval_attr_logic_blank by done. split; [by eexists | done]. }
  destruct (heap st !! attributes) as [d|] eqn:Hd.
  - destruct (eval_attr_logic_run ast_parse expression attributes st d Hb Hd)
      as (h' & -> & _). cbn [fst].
    split; [by eexists|]. intros _.
    split; [by intros e ->%(policy_value_parse_Raise _ d)|].
    split.
    { intros tree names st1 d1 e Hp Hd1 He.
      apply (visit_tree_Raise names tree st1 d1 e Hd1) in He.
      by rewrite (policy_value_validate_Raise _ d _ _ Hp He). }
    split.
    { intros tree e Hp Hc.
      by destruct (policy_value_compile_Raise _ d _ _ Hp Hc) as [e' ->]. }
    split.
    { intros tree compiled d' e Hp Hc [= <-] He.
      destruct (validate tree) as [[]|e'] eqn:Hv.
      - by rewrite (policy_value_eval _ d _ _ Hp Hv Hc), He.
      - by rewrite (policy_value_validate_Raise _ d _ _ Hp Hv). }
    destruct (policy_value ast_parse expression d) as [v|] eqn:Hpv; [|done].
    intros [= Hv']. apply policy_value_Return in Hpv
      as (tree & compiled & ? & ? & ? & ?).
    by exists tree, compiled, d, v.
  - rewrite (eval_attr_logic_run_unbound ast_parse expression attributes st
               Hb Hd). cbn [fst].
    split; [by eexists|]. by repeat split.
Qed.

(** [compile] raises nothing but [ValueError]. *)
Lemma compile_expr_Raise e err :
  compile_expr e = Raise err → ∃ msg, err = ValueError msg.
Proof.
  assert (Hctx : ∀ ctx, compile_ctx ctx = Raise err → ∃ msg, err = ValueError msg).
  { intros []; simpl; [done|intros [= <-]; by eexists..]. }
  assert (Heach : ∀ l,
            Forall (λ e, compile_expr e = Raise err → ∃ msg, err = ValueError msg) l →
            compile_each compile_expr l = Raise err → ∃ msg, err = ValueError msg).
  { induction 1 as [|x l Hx _ IH]; simpl; [done|].
    destruct (compile_expr x) as [[]|]; simpl; [exact IH|].
    intros [= ->]. by apply Hx. }
  induction e as [op values IH|l op r IHl IHr|op e IH|items IH
                 |l ops cs IHl IHcs|c|v s ctx IHv IHs|id ctx|elts ctx IH
                 |elts ctx IH|k children IH] using expr_ind_nested;
    cbn [compile_expr].
  - destruct (_ <? _)%nat; [intros [= <-]; by eexists | by apply Heach].
  - destruct (compile_expr l) as [[]|]; simpl; [done|].
    intros [= ->]. by apply IHl.
  - done.
  - induction IH as [|[[k|] v] items [Hk Hv] _ IHi]; simpl in *; [done| |].
    + destruct (compile_expr k) as [[]|]; simpl;
        [|intros [= ->]; by apply Hk].
      destruct (compile_expr v) as [[]|]; simpl;
        [done | intros [= ->]; by apply Hv].
    + destruct (compile_expr v) as [[]|]; simpl;
        [done | intros [= ->]; by apply Hv].
  - destruct (bool_decide _); [intros [= <-]; by eexists|].
    destruct (negb _); [intros [= <-]; by eexists|].
    destruct (compile_each compile_expr cs) as [[]|] eqn:Hc; simpl; [done|].
    intros [= ->]. by apply (Heach cs).
  - done.
  - destruct (compile_expr s) as [[]|]; simpl;
      [|intros [= ->]; by apply IHs].
    destruct (compile_expr v) as [[]|]; simpl;
      [apply Hctx | intros [= ->]; by apply IHv].
  - destruct (bool_decide _); [intros [= <-]; by eexists | apply Hctx].
  - destruct (compile_each compile_expr elts) as [[]|] eqn:Hc; simpl;
      [apply Hctx | intros [= ->]; by apply (Heach elts)].
  - destruct (compile_each compile_expr elts) as [[]|] eqn:Hc; simpl;
      [apply Hctx | intros [= ->]; by apply (Heach elts)].
  - done.
Qed.

Lemma validate_Expression body :
  validate (ast.Expression body) = check_all (visited body).
Proof. done. Qed.

Lemma check_all_disallowed l n :
  n ∈ l → n ∉ SafeEvalVisitor.ALLOWED_NODES →
  ∃ m, m ∈ l ∧ (m ∉ SafeEvalVisitor.ALLOWED_NODES)
       ∧ check_all l = Raise (ValueError ("Disallowed expression: " +:+ m)).
Proof.
  intros Hn Hna. destruct (check_all l) as [[]|e] eqn:Hc.
  - apply check_all_Return in Hc. rewrite Forall_forall in Hc.
    apply Hc in Hn. by apply allowed_elem_of in Hn.
  - apply check_all_Raise in Hc as (m & ? & Hm & ->). exists m.
    repeat split; [done|]. intros ?%allowed_elem_of. congruence.
Qed.

(** The placeholder outcome of [eval_expr] is never the outcome of the
    [try] block, unless the parser itself produces it. *)
Lemma policy_value_modelled expression d :
  modelled (ast_parse expression) →
  modelled (policy_value ast_parse expression d).
Proof.
  intros Hparse. unfold policy_value.
  destruct (ast_parse expression) as [[body]|e];
    [|rewrite bind_Raise; unfold modelled in *; congruence].
  rewrite bind_Return, validate_Expression.
  destruct (check_all (visited body)) as [[]|e] eqn:Hv.
  - rewrite bind_Return. cbn [compile].
    destruct (compile_expr body) as [[]|e] eqn:Hc.
    + rewrite !bind_Return, (eval_expr_optimize _ _ Hc).
      apply visit_Return_modelled.
      * intros id. unfold folded. destruct (String.eqb _ _); [done|].
        by rewrite load_name_SafeAttrs.
      * by apply check_all_Return.
    + apply compile_expr_Raise in Hc as [msg ->]. by rewrite !bind_Raise.
  - apply check_all_Raise in Hv as (m & _ & _ & ->). by rewrite bind_Raise.
Qed.

(** C2: if the tree of a non-blank expression has a node whose class is
    off the allow-list, [eval_attr_logic] returns [False]; the tree does
    not get past the visitor and [compile], so that nothing of it is
    evaluated, and the [ValueError] raised there is what the log records.
    When the node is one that the visitor reaches, the visitor itself
    raises, naming a class off the list.  Every arithmetic operator is
    such a node. *)
Theorem disallowed_node_denied expression attributes st body n :
  blank expression = false →
  ast_parse expression = Return (ast.Expression body) →
  n ∈ walk body → n ∉ SafeEvalVisitor.ALLOWED_NODES →
  (eval_attr_logic ast_parse expression attributes st).1 = Return false
  ∧ (∃ msg,
       (_ ← validate (ast.Expression body); compile (ast.Expression body))
       = Raise (ValueError msg)
       ∧ (∀ d, heap st !! attributes = Some d →
            owl_log (eval_attr_logic ast_parse expression attributes st).2
            = owl_log st ++ [ValueError msg]))
  ∧ (n ∈ visited body →
     ∀ names st1 d1, heap st1 !! names = Some d1 →
       ∃ m, (m ∉ SafeEvalVisitor.ALLOWED_NODES)
            ∧ (SafeEvalVisitor.visit_tree names (ast.Expression body) st1).1
              = Raise (ValueError ("Disallowed expression: " +:+ m)))
  ∧ (∀ l op r,
       ast.operator_name op ∈ visited (ast.BinOp l op r)
       ∧ ast.operator_name op ∉ SafeEvalVisitor.ALLOWED_NODES).
Proof.
  intros Hb Hp Hn Hna.
  assert (Hstage : ∃ msg,
            (_ ← validate (ast.Expression body); compile (ast.Expression body))
            = Raise (ValueError msg)).
  { rewrite validate_Expression.
    destruct (check_all (visited body)) as [[]|e] eqn:Hv.
    - simpl. destruct (compile_expr body) as [[]|e] eqn:Hc.
      + apply check_all_Return in Hv.
        pose proof (visited_compiled_walk body Hv Hc) as Hw.
        rewrite Forall_forall in Hw. apply Hw, allowed_elem_of in Hn. done.
      + apply compile_expr_Raise in Hc as [msg ->]. by exists msg.
    - apply check_all_Raise in Hv as (m & _ & _ & ->). by eexists. }
  destruct Hstage as [msg Hstage].
  assert (Hpv : ∀ d, policy_value ast_parse expression d
                     = Raise (ValueError msg)).
  { intros d. by apply (policy_value_stage_Raise _ d _ _ Hp). }
  split; [|split; [|split]].
  - destruct (heap st !! attributes) as [d|] eqn:Hd.
    + destruct (eval_attr_logic_run ast_parse expression attributes st d
                  Hb Hd) as (h' & -> & _). by rewrite Hpv.
    + by rewrite eval_attr_logic_run_unbound.
  - exists msg. split; [done|]. intros d Hd.
    destruct (eval_attr_logic_run ast_parse expression attributes st d
                Hb Hd) as (h' & -> & _). by rewrite Hpv.
  - intros Hvis names st1 d1 Hd1.
    destruct (check_all_disallowed _ _ Hvis Hna) as (m & _ & Hm & Hc).
    exists m. split; [done|].
    pose proof (visit_tree_validate names (ast.Expression body) st1 d1 Hd1)
      as Hvt.
    rewrite validate_Expression, Hc in Hvt.
    by destruct (SafeEvalVisitor.visit_tree _ _ _).1.
  - intros l op r. split.
    + cbn [visited]. set_solver.
    + rewrite <- allowed_elem_of, operator_not_allowed. done.
Qed.

(** C3: on a blank expression (empty, or white space only)
    [eval_attr_logic] returns [True] whatever the attributes, and touches
    neither the store nor the log.  On any other expression the result is
    either the [False] of the error path, with the error logged, or the
    truthiness of the value obtained by evaluating the parsed tree. *)
Theorem blank_expression_allowed expression attributes st :
  (blank expression = true →
   eval_attr_logic ast_parse expression attributes st = (Return true, st))
  ∧ (blank expression = false →
     ∀ b, (eval_attr_logic ast_parse expression attributes st).1 = Return b →
       (b = false
        ∧ ∃ e, owl_log (eval_attr_logic ast_parse expression attributes st).2
               = owl_log st ++ [e])
       ∨ (∃ tree compiled d v,
            ast_parse expression = Return tree
            ∧ validate tree = Return ()
            ∧ compile tree = Return compiled
            ∧ heap st !! attributes = Some d
            ∧ eval_expr (load_name eval_globals eval_builtins
                           (SafeAttrs.__getitem__ d)) compiled = Return v
            ∧ b = truthy v
            ∧ owl_log (eval_attr_logic ast_parse expression attributes st).2
              = owl_log st)).
Proof.
  split; [apply eval_attr_logic_blank|].
  intros Hb b. destruct (heap st !! attributes) as [d|] eqn:Hd.
  - destruct (eval_attr_logic_run ast_parse expression attributes st d Hb Hd)
      as (h' & -> & _). cbn [fst snd owl_log].
    destruct (policy_value ast_parse expression d) as [v|e] eqn:Hpv.
    + intros [= <-]. right.
      apply policy_value_Return in Hpv as (tree & compiled & ? & ? & ? & ?).
      exists tree, compiled, d, v. by rewrite app_nil_r.
    + intros [= <-]. left. by eauto.
  - rewrite (eval_attr_logic_run_unbound ast_parse expression attributes st
               Hb Hd). cbn [fst snd owl_log].
    intros [= <-]. left. by eauto.
Qed.

(** C4: in [eval_attr_logic("__debug__", d)], for a mapping [d] without
    the key [__debug__] such as the empty one, the variable is missing and
    yet does not evaluate as [None]: [compile] puts the constant [True] in
    the place of the name, so that [SafeAttrs.__missing__] is never asked,
    and the call returns [True] with nothing logged. *)
Theorem missing_debug_name_is_True attributes st d :
  ast_parse "__debug__"
  = Return (ast.Expression (ast.Name "__debug__" ast.Load)) →
  heap st !! attributes = Some d → d !! "__debug__" = None →
  compile (ast.Expression (ast.Name "__debug__" ast.Load))
  = Return (ast.Constant (ast.c_bool true))
  ∧ SafeAttrs.__getitem__ d "__debug__" = Return VNone
  ∧ (eval_attr_logic ast_parse "__debug__" attributes st).1 = Return true
  ∧ owl_log (eval_attr_logic ast_parse "__debug__" attributes st).2
    = owl_log st.
Proof.
  intros Hp Hd Hmiss. split; [done|]. split.
  { unfold SafeAttrs.__getitem__. by rewrite Hmiss. }
  destruct (eval_attr_logic_run ast_parse "__debug__" attributes st d
              eq_refl Hd) as (h' & -> & _). cbn [fst snd owl_log].
  rewrite (policy_value_eval _ d _ (ast.Constant (ast.c_bool true)) Hp)
    by done.
  cbn [eval_expr]. simpl. by rewrite app_nil_r.
Qed.

(** C7: when the four stages succeed, [eval_attr_logic] returns the
    truthiness of the evaluated value [v]: [False] exactly when [v] is
    [None], [False], zero, the empty string or an empty list, tuple or
    dict, and [True] for every other value. *)
Theorem result_is_truthiness expression attributes st tree compiled d v :
  blank expression = false →
  ast_parse expression = Return tree →
  validate tree = Return () →
  compile tree = Return compiled →
  heap st !! attributes = Some d →
  eval_expr (load_name eval_globals eval_builtins (SafeAttrs.__getitem__ d))
    compiled = Return v →
  (eval_attr_logic ast_parse expression attributes st).1
  = Return (truthy v)
  ∧ (truthy v = false ↔ v ∈ falsy_values)
  ∧ (truthy v = true ↔ v ∉ falsy_values).
Proof.
  intros Hb Hp Hv Hc Hd He.
  pose proof (truthy_false_iff v) as Hfalsy.
  split; [|split; [done|]].
  - destruct (eval_attr_logic_run ast_parse expression attributes st d Hb Hd)
      as (h' & -> & _). cbn [fst].
    by rewrite (policy_value_eval _ d _ _ Hp Hv Hc), He.
  - rewrite <- Hfalsy. by destruct (truthy v).
Qed.

(** C8: a call of [eval_attr_logic] leaves the caller's attribute mapping
    as it was, and likewise every dict object that existed before the
    call; the visitor, which binds missing names to [None], writes to its
    working copy only. *)
Theorem caller_mapping_unchanged expression attributes st :
  heap (eval_attr_logic ast_parse expression attributes st).2 !! attributes
  = heap st !! attributes
  ∧ (∀ r d, heap st !! r = Some d →
       heap (eval_attr_logic ast_parse expression attributes st).2 !! r
       = Some d)
  ∧ (∀ names tree st1 d1 r,
       heap st1 !! names = Some d1 → r ≠ names →
       heap (SafeEvalVisitor.visit_tree names tree st1).2 !! r
       = heap st1 !! r).
Proof.
  assert (Hkeep : ∀ r d, heap st !! r = Some d →
            heap (eval_attr_logic ast_parse expression attributes st).2 !! r
            = Some d).
  { intros r d Hr. destruct (blank expression) eqn:Hb.
    { by rewrite eval_attr_logic_blank. }
    destruct (heap st !! attributes) as [d'|] eqn:Hd.
    - destruct (eval_attr_logic_run ast_parse expression attributes st d'
                  Hb Hd) as (h' & -> & Hsub). cbn [snd heap].
      by eapply lookup_weaken.
    - by rewrite eval_attr_logic_run_unbound. }
  split; [|split; [exact Hkeep|]].
  - destruct (heap st !! attributes) as [d|] eqn:Hd; [by apply Hkeep|].
    destruct (blank expression) eqn:Hb.
    + by rewrite eval_attr_logic_blank.
    + by rewrite eval_attr_logic_run_unbound.
  - intros names tree st1 d1 r Hd1 Hne.
    destruct (visit_tree_runs_as names tree st1 d1 Hd1) as (d' & _ & ->).
    cbn [heap]. by rewrite lookup_insert_ne.
Qed.

(** C10: the free name [__debug__] does not resolve through the attribute
    mapping.  Whatever the mapping binds it to, [0] for one,
    [eval_attr_logic("__debug__", d)] returns [True]: the name is replaced
    at compile time by the host's constant, which the empty builtins table
    and the [SafeAttrs] mapping do not keep out of reach. *)
Theorem debug_name_bypasses_attributes attributes st d :
  ast_parse "__debug__"
  = Return (ast.Expression (ast.Name "__debug__" ast.Load)) →
  heap st !! attributes = Some d →
  (eval_attr_logic ast_parse "__debug__" attributes st).1 = Return true
  ∧ (∀ globals builtins compiled,
       compile (ast.Expression (ast.Name "__debug__" ast.Load))
       = Return compiled →
       eval_expr (load_name globals builtins (SafeAttrs.__getitem__ d))
         compiled = Return (VBool true))
  ∧ (d !! "__debug__" = Some (VInt 0) →
     load_name eval_globals eval_builtins (SafeAttrs.__getitem__ d)
       "__debug__" = Return (VInt 0)
     ∧ truthy (VInt 0) = false).
Proof.
  intros Hp Hd. split; [|split].
  - destruct (eval_attr_logic_run ast_parse "__debug__" attributes st d
                eq_refl Hd) as (h' & -> & _). cbn [fst].
    by rewrite (policy_value_eval _ d _ (ast.Constant (ast.c_bool true)) Hp).
  - by intros globals builtins compiled [= <-].
  - intros H0. by rewrite load_name_SafeAttrs, H0.
Qed.

(** C5, as amended: an ordering comparison ([<], [<=], [>], [>=]) whose
    operands have types that the host cannot order raises [TypeError], so
    does the evaluation of a [Compare] node made of it, and
    [eval_attr_logic('level >= "not-a-number"', {"level": 3})] is [False]
    with the [TypeError] logged; so is every call on an expression that is
    one such comparison.  The comparisons [==] and [!=] raise nothing: each
    yields a boolean, that of [!=] being the negation of that of [==]. *)
Theorem unorderable_comparison_denied :
  (∀ op l r, ordering_op op = true → orderable l r = false →
     compare_op op l r = Raise TypeError)
  ∧ (∀ lookup lhs rhs op l r,
       ordering_op op = true → orderable l r = false →
       eval_expr lookup lhs = Return l → eval_expr lookup rhs = Return r →
       eval_expr lookup (ast.Compare lhs [op] [rhs]) = Raise TypeError)
  ∧ (∀ l r, ∃ b, compare_op ast.Eq l r = Return (VBool b)
                 ∧ compare_op ast.NotEq l r = Return (VBool (negb b)))
  ∧ (∀ attributes st d,
       ast_parse ("level >= " +:+ quoted "not-a-number")
       = Return (ast.Expression
                   (ast.Compare (ast.Name "level" ast.Load) [ast.GtE]
                      [ast.Constant (ast.c_str "not-a-number")])) →
       heap st !! attributes = Some d → d !! "level" = Some (VInt 3) →
       (eval_attr_logic ast_parse ("level >= " +:+ quoted "not-a-number")
          attributes st).1 = Return false
       ∧ owl_log (eval_attr_logic ast_parse
                    ("level >= " +:+ quoted "not-a-number") attributes st).2
         = owl_log st ++ [TypeError])
  ∧ (∀ expression attributes st d lhs rhs op l r,
       blank expression = false →
       ast_parse expression
       = Return (ast.Expression (ast.Compare lhs [op] [rhs])) →
       heap st !! attributes = Some d →
       ordering_op op = true → orderable l r = false →
       eval_expr (load_name eval_globals eval_builtins
                    (SafeAttrs.__getitem__ d)) (optimize lhs) = Return l →
       eval_expr (load_name eval_globals eval_builtins
                    (SafeAttrs.__getitem__ d)) (optimize rhs) = Return r →
       (eval_attr_logic ast_parse expression attributes st).1 = Return false).
Proof.
  assert (Hord : ∀ o l r, orderable l r = false → py_order o l r = Raise TypeError).
  { intros o l r. by destruct l, r. }
  assert (Hcmp : ∀ op l r, ordering_op op = true → orderable l r = false →
            compare_op op l r = Raise TypeError).
  { intros op l r Hop Hlr. destruct op; try done; simpl; by rewrite Hord. }
  split; [exact Hcmp|split; [|split; [|split]]].
  - intros lookup lhs rhs op l r Hop Hlr Hl Hr. cbn [eval_expr].
    rewrite Hl, bind_Return. cbn [eval_compare]. rewrite Hr, bind_Return.
    by apply Hcmp.
  - intros l r. by exists (py_eq l r).
  - intros attributes st d Hp Hd Hlevel.
    destruct (eval_attr_logic_run ast_parse
                ("level >= " +:+ quoted "not-a-number") attributes st d
                eq_refl Hd) as (h' & -> & _). cbn [fst snd owl_log].
    rewrite (policy_value_eval _ d _ _ Hp eq_refl eq_refl).
    simpl (optimize _).
    cbn [eval_expr]. rewrite load_name_SafeAttrs, Hlevel. done.
  - intros expression attributes st d lhs rhs op l r Hb Hp Hd Hop Hlr Hl Hr.
    destruct (eval_attr_logic_run ast_parse expression attributes st d Hb Hd)
      as (h' & -> & _). cbn [fst]. unfold policy_value.
    rewrite Hp, bind_Return.
    destruct (validate _) as [[]|]; [rewrite bind_Return | done].
    cbn [compile]. destruct (compile_expr _) as [[]|]; [|done].
    rewrite !bind_Return. cbn [optimize map eval_expr].
    rewrite Hl, bind_Return. cbn [eval_compare].
    by rewrite Hr, bind_Return, Hcmp.
Qed.

(** C6, as amended: when the right operand is a list or a tuple, [in]
    tests whether the left operand equals one of its items, and [not in]
    is the negation; when it is a dict, a hashable left operand is tested
    against the keys; when it is a string, [in] is the substring test and
    raises unless the left operand is a string too; when it is [None], a
    boolean or a number, both operators raise [TypeError].  So
    [eval_attr_logic('"admin" in roles', {"roles": ["user", "admin"]})]
    is [True], and the same expression is [False], with the [TypeError]
    logged, when [roles] is missing. *)
Theorem membership_semantics :
  (∀ x c items, c = VList items ∨ c = VTuple items →
     ∃ b, compare_op ast.In x c = Return (VBool b)
          ∧ compare_op ast.NotIn x c = Return (VBool (negb b))
          ∧ (b = true ↔ ∃ e, e ∈ items ∧ py_eq e x = true))
  ∧ (∀ x items, hashable x = true →
       ∃ b, compare_op ast.In x (VDict items) = Return (VBool b)
            ∧ compare_op ast.NotIn x (VDict items) = Return (VBool (negb b))
            ∧ (b = true ↔ ∃ k v, (k, v) ∈ items ∧ py_eq k x = true))
  ∧ (∀ sub s,
       ∃ b, compare_op ast.In (VStr sub) (VStr s) = Return (VBool b)
            ∧ compare_op ast.NotIn (VStr sub) (VStr s)
              = Return (VBool (negb b))
            ∧ (b = true ↔ ∃ pre post, s = pre +:+ sub +:+ post))
  ∧ (∀ x s, kind_of x ≠ KStr →
       compare_op ast.In x (VStr s) = Raise TypeError
       ∧ compare_op ast.NotIn x (VStr s) = Raise TypeError)
  ∧ (∀ x c, kind_of c = KNone ∨ kind_of c = KNumber →
       compare_op ast.In x c = Raise TypeError
       ∧ compare_op ast.NotIn x c = Raise TypeError)
  ∧ (∀ attributes st d,
       ast_parse (quoted "admin" +:+ " in roles")
       = Return (ast.Expression
                   (ast.Compare (ast.Constant (ast.c_str "admin")) [ast.In]
                      [ast.Name "roles" ast.Load])) →
       heap st !! attributes = Some d →
       (d !! "roles" = Some (VList [VStr "user"; VStr "admin"]) →
        (eval_attr_logic ast_parse (quoted "admin" +:+ " in roles")
           attributes st).1 = Return true)
       ∧ (d !! "roles" = None →
          (eval_attr_logic ast_parse (quoted "admin" +:+ " in roles")
             attributes st).1 = Return false
          ∧ owl_log (eval_attr_logic ast_parse
                       (quoted "admin" +:+ " in roles") attributes st).2
            = owl_log st ++ [TypeError])).
Proof.
  split; [|split; [|split; [|split; [|split]]]].
  - intros x c items Hc.
    exists (existsb (λ e, py_eq e x) items).
    split; [by destruct Hc as [->| ->]|].
    split; [by destruct Hc as [->| ->]|]. apply existsb_py_eq.
  - intros x items Hx.
    exists (bool_decide (is_Some (assoc_get py_eq x items))). simpl.
    rewrite Hx. repeat split.
    + intros ?%bool_decide_eq_true. by apply assoc_get_py_eq.
    + intros ?. apply bool_decide_eq_true. by apply assoc_get_py_eq.
  - intros sub s. exists (str_contains sub s). repeat split.
    + by intros ?%str_contains_spec.
    + by intros ?%str_contains_spec.
  - intros x s Hx. by destruct x.
  - intros x c Hc. by destruct c, Hc.
  - intros attributes st d Hp Hd.
    destruct (eval_attr_logic_run ast_parse
                (quoted "admin" +:+ " in roles") attributes st d
                eq_refl Hd) as (h' & -> & _). cbn [fst snd owl_log].
    rewrite (policy_value_eval _ d _ _ Hp eq_refl eq_refl).
    simpl (optimize _).
    cbn [eval_expr eval_compare]. rewrite bind_Return, load_name_SafeAttrs.
    split; by intros ->.
Qed.

End Policy.

(** ** The attribute provider *)

Section ProviderCases.

Variable getenv : string → option string.
Variable quote : string → string.
Variable requests_get :
  string → list (string * string) → result requests.Response.

Lemma data_get_dict items name :
  data_get (VDict items) name = Return (default VNone (json_field items name)).
Proof. done. Qed.

Lemma py_or_normalized items name dflt :
  py_or (default VNone (json_field items name)) dflt
  = normalized (json_field items name) dflt.
Proof. unfold py_or, normalized. by destruct (json_field items name). Qed.

(** C9, as amended: the fetch raises [LMSUnavailable] when the base URL
    or the token is unset or empty, when the request raises
    [RequestException], when the status is not 200 and when the body is
    not valid JSON.  When the body is a JSON object, a field that is
    missing or falsy is replaced by its default ([{}] for [attributes],
    [[]] for [active_attempt_task_ids]); the fetch then raises
    [LMSUnavailable] exactly when [attributes] is not a dict or
    [active_attempt_task_ids] is not a list after this replacement, and
    returns the normalized pair otherwise. *)
Theorem lms_fetch_cases email :
  ((default EmptyString (getenv "LMS_BASE_URL") = EmptyString
    ∨ default EmptyString (getenv "LMS_CTFD_TOKEN") = EmptyString) →
   ∃ msg, get_lms_ctfd_data_for_email getenv quote requests_get email
          = Raise (LMSUnavailable msg))
  ∧ (∀ base_url token,
       getenv "LMS_BASE_URL" = Some base_url →
       getenv "LMS_CTFD_TOKEN" = Some token →
       base_url ≠ EmptyString → token ≠ EmptyString →
       (∀ msg,
          requests_get (lms_url quote base_url email) (lms_headers token)
          = Raise (RequestException msg) →
          get_lms_ctfd_data_for_email getenv quote requests_get email
          = Raise (LMSUnavailable msg))
       ∧ (∀ resp,
            requests_get (lms_url quote base_url email) (lms_headers token)
            = Return resp →
            (requests.status_code resp ≠ 200 →
             ∃ msg, get_lms_ctfd_data_for_email getenv quote requests_get email
                    = Raise (LMSUnavailable msg))
            ∧ (requests.status_code resp = 200 →
               (∀ e, requests.json resp = Raise e →
                  ∃ msg,
                    get_lms_ctfd_data_for_email getenv quote requests_get email
                    = Raise (LMSUnavailable msg))
               ∧ (∀ items, requests.json resp = Return (VDict items) →
                    get_lms_ctfd_data_for_email getenv quote requests_get email
                    = let attr := normalized (json_field items "attributes")
                                    (VDict []) in
                      let task_ids :=
                        normalized (json_field items "active_attempt_task_ids")
                          (VList []) in
                      if isinstance_dict attr && isinstance_list task_ids
                      then Return (VDict [(VStr "attributes", attr);
                                          (VStr "active_attempt_task_ids",
                                           task_ids)])
                      else Raise (LMSUnavailable
                                    "Invalid LMS payload structure"))))).
Proof.
  unfold get_lms_ctfd_data_for_email. split.
  - destruct (getenv "LMS_BASE_URL") as [base_url|],
      (getenv "LMS_CTFD_TOKEN") as [token|]; simpl; try by eexists.
    intros [-> | ->]; simpl; [by eexists|].
    rewrite orb_true_r. by eexists.
  - intros base_url token -> -> Hbase Htoken.
    assert (Hcfg : negb (truthy (VStr base_url)) || negb (truthy (VStr token))
                   = false).
    { simpl. rewrite !negb_involutive. apply orb_false_iff.
      split; by apply String.eqb_neq. }
    rewrite Hcfg. fold (lms_url quote base_url email) (lms_headers token).
    split; [by intros msg ->|].
    intros resp ->. split.
    + intros Hst. apply Z.eqb_neq in Hst. rewrite Hst. by eexists.
    + intros ->. simpl. split; [intros e ->; by eexists|].
      intros items ->. rewrite !data_get_dict. simpl.
      rewrite !py_or_normalized.
      by destruct (isinstance_dict _), (isinstance_list _).
Qed.

End ProviderCases.

(** ** The examples of the specification, on the stand-in parser *)

Lemma eval_attr_logic_fail_closed_witness :
  (eval_attr_logic example_parse "1 + 2" caller (example_state ∅)).1
  = Return false.
Proof.
  apply (proj1 (proj2 (proj2 (eval_attr_logic_fail_closed example_parse
                                 "1 + 2" caller (example_state ∅)) eq_refl))
           (ast.Expression (ast.BinOp (int_lit 1) ast.Add (int_lit 2)))
           caller (example_state ∅) ∅
           (ValueError "Disallowed expression: Add"));
    vm_compute; reflexivity.
Defined.

Lemma disallowed_node_denied_witness :
  (eval_attr_logic example_parse "1 + 2" caller (example_state ∅)).1
  = Return false.
Proof.
  apply (disallowed_node_denied example_parse "1 + 2" caller (example_state ∅)
           (ast.BinOp (int_lit 1) ast.Add (int_lit 2)) "Add").
  - vm_compute; reflexivity.
  - vm_compute; reflexivity.
  - apply (bool_decide_eq_true_1 _). vm_compute; reflexivity.
  - apply (bool_decide_eq_false_1 _). vm_compute; reflexivity.
Defined.

Lemma blank_expression_allowed_witness :
  eval_attr_logic example_parse "   " caller
    (example_state {[ "anything" := VInt 1 ]})
  = (Return true, example_state {[ "anything" := VInt 1 ]}).
Proof.
  apply (proj1 (blank_expression_allowed example_parse "   " caller
                  (example_state {[ "anything" := VInt 1 ]}))).
  vm_compute; reflexivity.
Defined.

Lemma missing_debug_name_is_True_witness :
  (eval_attr_logic example_parse "__debug__" caller (example_state ∅)).1
  = Return true
  ∧ owl_log (eval_attr_logic example_parse "__debug__" caller
               (example_state ∅)).2 = [].
Proof.
  apply (proj2 (proj2 (missing_debug_name_is_True example_parse caller
                         (example_state ∅) ∅ eq_refl
                         ltac:(vm_compute; reflexivity)
                         ltac:(vm_compute; reflexivity)))).
Defined.

Lemma result_is_truthiness_witness :
  (eval_attr_logic example_parse ("role == " +:+ quoted "pro") caller
     (example_state {[ "role" := VStr "pro" ]})).1
  = Return (truthy (VBool true)).
Proof.
  refine (proj1 (result_is_truthiness example_parse
                  ("role == " +:+ quoted "pro") caller
                  (example_state {[ "role" := VStr "pro" ]})
                  (ast.Expression
                     (ast.Compare (name "role") [ast.Eq] [str_lit "pro"]))
                  (ast.Compare (name "role") [ast.Eq] [str_lit "pro"])
                  {[ "role" := VStr "pro" ]} (VBool true) _ _ _ _ _ _));
    vm_compute; reflexivity.
Defined.

Lemma caller_mapping_unchanged_witness :
  heap (eval_attr_logic example_parse "missing_key" caller
          (example_state ∅)).2 !! caller = Some ∅.
Proof.
  apply (proj1 (proj2 (caller_mapping_unchanged example_parse "missing_key"
                         caller (example_state ∅)))).
  vm_compute; reflexivity.
Defined.

Lemma debug_name_bypasses_attributes_witness :
  (eval_attr_logic example_parse "__debug__" caller
     (example_state {[ "__debug__" := VInt 0 ]})).1 = Return true.
Proof.
  apply (proj1 (debug_name_bypasses_attributes example_parse caller
                  (example_state {[ "__debug__" := VInt 0 ]})
                  {[ "__debug__" := VInt 0 ]} eq_refl
                  ltac:(vm_compute; reflexivity))).
Defined.

Lemma unorderable_comparison_denied_witness :
  (eval_attr_logic example_parse ("level >= " +:+ quoted "not-a-number")
     caller (example_state {[ "level" := VInt 3 ]})).1 = Return false
  ∧ owl_log (eval_attr_logic example_parse
               ("level >= " +:+ quoted "not-a-number") caller
               (example_state {[ "level" := VInt 3 ]})).2 = [TypeError].
Proof.
  apply (proj1 (proj2 (proj2 (proj2
                  (unorderable_comparison_denied example_parse))))
           caller (example_state {[ "level" := VInt 3 ]})
           {[ "level" := VInt 3 ]}); vm_compute; reflexivity.
Defined.

Lemma membership_semantics_witness :
  (eval_attr_logic example_parse (quoted "admin" +:+ " in roles") caller
     (example_state {[ "roles" := VList [VStr "user"; VStr "admin"] ]})).1
  = Return true.
Proof.
  apply (proj1 (proj2 (proj2 (proj2 (proj2 (proj2
           (membership_semantics example_parse)))))
           caller
           (example_state {[ "roles" := VList [VStr "user"; VStr "admin"] ]})
           {[ "roles" := VList [VStr "user"; VStr "admin"] ]}
           eq_refl ltac:(vm_compute; reflexivity))).
  vm_compute; reflexivity.
Defined.

Lemma lms_fetch_cases_witness :
  get_lms_ctfd_data_for_email example_getenv id
    (example_requests_get 200
       (Return (VDict [(VStr "attributes", VDict [(VStr "role", VStr "pro")]);
                       (VStr "active_attempt_task_ids", VList [VInt 7])])))
    "user@example.org"
  = Return (VDict [(VStr "attributes", VDict [(VStr "role", VStr "pro")]);
                   (VStr "active_attempt_task_ids", VList [VInt 7])]).
Proof.
  pose proof (lms_fetch_cases example_getenv id
                (example_requests_get 200
                   (Return (VDict [(VStr "attributes",
                                    VDict [(VStr "role", VStr "pro")]);
                                   (VStr "active_attempt_task_ids",
                                    VList [VInt 7])])))
                "user@example.org") as [_ Hcfg].
  destruct (Hcfg "https://lms.example/" "secret") as [_ Hresp];
    [reflexivity | reflexivity | discriminate | discriminate |].
  destruct (Hresp (requests.mkResponse 200
                     (Return (VDict [(VStr "attributes",
                                      VDict [(VStr "role", VStr "pro")]);
                                     (VStr "active_attempt_task_ids",
                                      VList [VInt 7])]))))
    as [_ Hok]; [reflexivity|].
  destruct (Hok eq_refl) as [_ Hjson].
  exact (Hjson _ eq_refl).
Defined.

(** The remaining scenarios of the specification. *)

Example scenario_role_pro :
  (eval_attr_logic example_parse ("role == " +:+ quoted "pro") caller
     (example_state {[ "role" := VStr "pro" ]})).1 = Return true.
Proof. vm_compute. reflexivity. Qed.

Example scenario_role_basic :
  (eval_attr_logic example_parse ("role == " +:+ quoted "pro") caller
     (example_state {[ "role" := VStr "basic" ]})).1 = Return false.
Proof. vm_compute. reflexivity. Qed.

Example scenario_level_5 :
  (eval_attr_logic example_parse
     ("department == " +:+ quoted "infosec" +:+ " and level >= 3") caller
     (example_state {[ "department" := VStr "infosec"; "level" := VInt 5 ]})).1
  = Return true.
Proof. vm_compute. reflexivity. Qed.

Example scenario_level_2 :
  (eval_attr_logic example_parse
     ("department == " +:+ quoted "infosec" +:+ " and level >= 3") caller
     (example_state {[ "department" := VStr "infosec"; "level" := VInt 2 ]})).1
  = Return false.
Proof. vm_compute. reflexivity. Qed.

Example scenario_empty_expression :
  (eval_attr_logic example_parse EmptyString caller
     (example_state {[ "anything" := VInt 1 ]})).1 = Return true.
Proof. vm_compute. reflexivity. Qed.

(** After [eval_attr_logic("missing_key", {})] the caller's mapping is
    still empty; the default went into the visitor's copy. *)
Example default_goes_to_the_copy :
  heap (eval_attr_logic example_parse "missing_key" caller
          (example_state ∅)).2 !! caller = Some ∅
  ∧ heap (eval_attr_logic example_parse "missing_key" caller
            (example_state ∅)).2 !! 2%positive
    = Some {[ "missing_key" := VNone ]}.
Proof. vm_compute. by split. Qed.

(** ** Where the code departs from the specification *)

(** C5: in [eval_attr_logic('level != "not-a-number"', {"level": 3})] the
    operands of [!=] are a number and a string, which the host cannot
    order; yet the comparison raises nothing, it is true, and the call
    returns [True] with nothing logged. *)
Lemma inequality_of_unorderable_operands_is_True :
  orderable (VInt 3) (VStr "not-a-number") = false
  ∧ compare_op ast.NotEq (VInt 3) (VStr "not-a-number") = Return (VBool true)
  ∧ compare_op ast.Eq (VInt 3) (VStr "not-a-number") = Return (VBool false)
  ∧ (eval_attr_logic example_parse ("level != " +:+ quoted "not-a-number")
       caller (example_state {[ "level" := VInt 3 ]})).1 = Return true
  ∧ owl_log (eval_attr_logic example_parse
               ("level != " +:+ quoted "not-a-number") caller
               (example_state {[ "level" := VInt 3 ]})).2 = [].
Proof. vm_compute. by repeat split. Qed.

(** C6: in [eval_attr_logic('"pro" in role', {"role": "professional"})]
    the right operand is a string; the string ["pro"] is none of the items
    that iterating over ["professional"] yields, and still the test raises
    nothing and the call returns [True]: on a string [in] is the substring
    test. *)
Lemma membership_in_a_string_is_substring :
  kind_of (VStr "professional") = KStr
  ∧ existsb (λ e, py_eq e (VStr "pro")) (VStr <$> str_chars "professional")
    = false
  ∧ compare_op ast.In (VStr "pro") (VStr "professional") = Return (VBool true)
  ∧ (eval_attr_logic example_parse (quoted "pro" +:+ " in role") caller
       (example_state {[ "role" := VStr "professional" ]})).1 = Return true
  ∧ owl_log (eval_attr_logic example_parse (quoted "pro" +:+ " in role")
               caller (example_state {[ "role" := VStr "professional" ]})).2
    = [].
Proof. vm_compute. by repeat split. Qed.

(** C9: when the LMS answers 200 with the JSON object [{}], both required
    fields are missing, and the fetch does not fail: it returns the pair
    of defaults. *)
Lemma missing_fields_are_defaulted :
  json_field [] "attributes" = None
  ∧ json_field [] "active_attempt_task_ids" = None
  ∧ get_lms_ctfd_data_for_email example_getenv id
      (example_requests_get 200 (Return (VDict []))) "user@example.org"
    = Return (VDict [(VStr "attributes", VDict []);
                     (VStr "active_attempt_task_ids", VList [])]).
Proof. vm_compute. by repeat split. Qed.

(** A body that is valid JSON but not an object makes [data.get] raise
    [AttributeError], which the function does not convert. *)
Lemma non_object_body_raises_AttributeError :
  get_lms_ctfd_data_for_email example_getenv id
    (example_requests_get 200 (Return (VList []))) "user@example.org"
  = Raise AttributeError.
Proof. reflexivity. Qed.


(** * Further properties of the code *)

(** ** The language that [SafeEvalVisitor] accepts *)

Lemma all_allowed_singleton n :
  all_allowed [n] ↔ SafeEvalVisitor.allowed n = true.
Proof. rewrite Forall_cons, Forall_nil. tauto. Qed.

Lemma allowed_ctx ctx :
  SafeEvalVisitor.allowed (ast.expr_context_name ctx) = true ↔ is_Load ctx = true.
Proof. by destruct ctx. Qed.

Lemma allowed_cmpops ops :
  all_allowed (map ast.cmpop_name ops) ↔ forallb cmpop_accepted ops = true.
Proof.
  induction ops as [|op ops IH]; simpl; [by rewrite Forall_nil|].
  rewrite Forall_cons, andb_true_iff, IH. by destruct op.
Qed.

Lemma accepted_children (l : list ast.expr) :
  Forall (λ e, all_allowed (visited e) ↔ accepted e = true) l →
  all_allowed (concat (map visited l)) ↔ forallb accepted l = true.
Proof.
  induction 1 as [|e l He _ IH]; simpl; [by rewrite Forall_nil|].
  by rewrite Forall_app, andb_true_iff, He, IH.
Qed.

Lemma accepted_keys (items : list (option ast.expr * ast.expr)) :
  Forall (λ kv, from_option (λ k, all_allowed (visited k) ↔ accepted k = true)
                  True kv.1) items →
  all_allowed (concat (map (λ kv, from_option visited [] kv.1) items))
  ↔ forallb (λ kv, from_option accepted true kv.1) items = true.
Proof.
  induction 1 as [|[[k|] v] items Hk _ IH]; simpl in *;
    [by rewrite Forall_nil| |done].
  by rewrite Forall_app, andb_true_iff, Hk, IH.
Qed.

Lemma accepted_values (items : list (option ast.expr * ast.expr)) :
  Forall (λ kv, all_allowed (visited kv.2) ↔ accepted kv.2 = true) items →
  all_allowed (concat (map (λ kv, visited kv.2) items))
  ↔ forallb (λ kv, accepted kv.2) items = true.
Proof.
  induction 1 as [|[k v] items Hv _ IH]; simpl in *; [by rewrite Forall_nil|].
  by rewrite Forall_app, andb_true_iff, Hv, IH.
Qed.

Lemma all_allowed_accepted e : all_allowed (visited e) ↔ accepted e = true.
Proof.
  induction e as [op values IH|l op r IHl IHr|op e IH|items IH
                 |l ops cs IHl IHcs|c|v s ctx IHv IHs|id ctx|elts ctx IH
                 |elts ctx IH|k children IH] using expr_ind_nested;
    cbn [visited accepted];
    rewrite ?Forall_cons, ?Forall_app, ?Forall_cons, ?Forall_nil,
      ?andb_true_iff.
  - rewrite (accepted_children _ IH). destruct op; intuition (done || discriminate).
  - rewrite operator_not_allowed. intuition (done || discriminate).
  - rewrite IH. destruct op; intuition (done || discriminate).
  - rewrite accepted_keys, accepted_values.
    + intuition (done || discriminate).
    + eapply Forall_impl; [exact IH|]. by intros [k v] [_ ?].
    + eapply Forall_impl; [exact IH|]. by intros [k v] [? _].
  - rewrite IHl, allowed_cmpops, (accepted_children _ IHcs). intuition (done || discriminate).
  - intuition (done || discriminate).
  - rewrite IHv, IHs, allowed_ctx. intuition (done || discriminate).
  - intuition (done || discriminate).
  - rewrite (accepted_children _ IH), allowed_ctx. intuition (done || discriminate).
  - rewrite (accepted_children _ IH), allowed_ctx. intuition (done || discriminate).
  - rewrite other_expr_not_allowed. intuition (done || discriminate).
Qed.

(** X1: an expression on which the visitor returns normally is of the
    accepted language: it is made of names, constants, [and]/[or], [not],
    comparisons other than [is]/[is not], subscripts, and list, tuple and
    dict displays in a [Load] context.  On an expression with arithmetic,
    another unary operator (so the sign of a negative literal), attribute
    access, a call or any other construct the visitor raises. *)
Theorem visitor_accepts_only names body st d :
  heap st !! names = Some d →
  ((SafeEvalVisitor.visit_tree names (ast.Expression body) st).1 = Return () →
   accepted body = true)
  ∧ (accepted body = false →
     ∃ e, (SafeEvalVisitor.visit_tree names (ast.Expression body) st).1
          = Raise e).
Proof.
  intros Hd.
  pose proof (visit_tree_validate names (ast.Expression body) st d Hd) as Hv.
  rewrite validate_Expression in Hv.
  assert (Hret : (SafeEvalVisitor.visit_tree names (ast.Expression body) st).1
                 = Return () → accepted body = true).
  { intros Hr. rewrite Hr in Hv. simpl in Hv. symmetry in Hv.
    by apply all_allowed_accepted, check_all_Return. }
  split; [done|]. intros Ha.
  destruct (SafeEvalVisitor.visit_tree names (ast.Expression body) st).1
    as [[]|e]; [|by exists e].
  rewrite Hret in Ha; done.
Qed.

Lemma visitor_accepts_only_witness :
  accepted (ast.Compare (name "level") [ast.GtE] [int_lit 3]) = true.
Proof.
  apply (proj1 (visitor_accepts_only caller
                  (ast.Compare (name "level") [ast.GtE] [int_lit 3])
                  (example_state ∅) ∅ ltac:(vm_compute; reflexivity))).
  vm_compute; reflexivity.
Defined.

(** ** The exceptions of an accepted expression *)



Lemma benign_Return {A} (a : A) : benign (Return a).
Proof. done. Qed.

Lemma benign_TypeError {A} : benign (@Raise A TypeError).
Proof. intros e [= <-]. auto. Qed.


Section Benign.

Variable ev : ast.expr → result value.





End Benign.




Lemma compile_Return tree compiled :
  compile tree = Return compiled →
  ∃ body, tree = ast.Expression body ∧ compile_expr body = Return ()
          ∧ compiled = optimize body.
Proof.
  destruct tree as [body]. cbn [compile].
  destruct (compile_expr body) as [[]|] eqn:Hc; [|done].
  rewrite bind_Return. intros [= <-]. by exists body.
Qed.


Lemma lookup_concat_names (P : string → Prop) (f g : ast.expr → result value) l :
  Forall (λ e, (∀ id, id ∈ names_of e → P id) → f e = g e) l →
  (∀ id, id ∈ concat (map names_of l) → P id) →
  Forall (λ e, f e = g e) l.
Proof.
  induction 1 as [|e l He _ IH]; simpl; [done|]. intros HP.
  constructor; [apply He | apply IH]; intros id Hid; apply HP;
    rewrite elem_of_app; auto.
Qed.

(** Evaluation consults the resolution of names at the names of the
    expression only. *)
Lemma eval_expr_ext_on (lookup lookup' : string → result value) e :
  (∀ id, id ∈ names_of e → lookup id = lookup' id) →
  eval_expr lookup e = eval_expr lookup' e.
Proof.
  induction e as [op values IH|l op r IHl IHr|op e IH|items IH
                 |l ops cs IHl IHcs|c|v s ctx IHv IHs|id ctx|elts ctx IH
                 |elts ctx IH|k children IH] using expr_ind_nested;
    cbn [names_of eval_expr]; intros Hext; try done.
  - apply eval_boolop_ext. by apply (lookup_concat_names (λ id, lookup id = lookup' id)).
  - by rewrite IH.
  - f_equal. apply eval_items_ext.
    assert (Hk : ∀ id, id ∈ concat (map (λ kv : option ast.expr * ast.expr,
                         from_option names_of [] kv.1) items) →
                       lookup id = lookup' id)
      by (intros; apply Hext, elem_of_app; auto).
    assert (Hv : ∀ id, id ∈ concat (map (λ kv : option ast.expr * ast.expr,
                         names_of kv.2) items) →
                       lookup id = lookup' id)
      by (intros; apply Hext, elem_of_app; auto).
    clear Hext.
    induction IH as [|[[k|] v] items [Hik Hiv] _ IHi]; simpl in *; [done| |];
      constructor; simpl.
    + split; [apply Hik | apply Hiv]; intros id Hid;
        [apply Hk | apply Hv]; rewrite elem_of_app; auto.
    + apply IHi; intros id Hid; [apply Hk | apply Hv];
        rewrite elem_of_app; auto.
    + split; [done|]. apply Hiv. intros id Hid. apply Hv.
      rewrite elem_of_app; auto.
    + apply IHi; [done|]. intros id Hid. apply Hv. rewrite elem_of_app; auto.
  - rewrite IHl by (intros; apply Hext, elem_of_app; auto).
    destruct (eval_expr lookup' l) as [lv|]; [|done]. rewrite !bind_Return.
    apply eval_compare_ext.
    apply (lookup_concat_names (λ id, lookup id = lookup' id)); [exact IHcs|].
    intros; apply Hext, elem_of_app; auto.
  - rewrite IHv, IHs; [done|intros; apply Hext, elem_of_app; auto..].
  - apply Hext. by apply list_elem_of_singleton.
  - f_equal. apply eval_each_ext. by apply (lookup_concat_names (λ id, lookup id = lookup' id)).
  - f_equal. apply eval_each_ext. by apply (lookup_concat_names (λ id, lookup id = lookup' id)).
Qed.

Section Decision.

Variable ast_parse : string → result ast.mod_.

(** The result of a call on a dict. *)
Lemma eval_attr_logic_result expression attributes st d :
  heap st !! attributes = Some d →
  (eval_attr_logic ast_parse expression attributes st).1
  = Return (if blank expression then true
            else match policy_value ast_parse expression d with
                 | Return v => truthy v
                 | Raise _ => false
                 end).
Proof.
  intros Hd. destruct (blank expression) eqn:Hb.
  - by rewrite eval_attr_logic_blank.
  - by destruct (eval_attr_logic_run ast_parse expression attributes st d
                   Hb Hd) as (h' & -> & _).
Qed.

(** Dict objects that exist before a call are the same after it. *)
Lemma eval_attr_logic_keeps expression attributes st r d :
  heap st !! r = Some d →
  heap (eval_attr_logic ast_parse expression attributes st).2 !! r = Some d.
Proof.
  intros Hr. destruct (blank expression) eqn:Hb.
  { by rewrite eval_attr_logic_blank. }
  destruct (heap st !! attributes) as [d'|] eqn:Hd.
  - destruct (eval_attr_logic_run ast_parse expression attributes st d'
                Hb Hd) as (h' & -> & Hsub). cbn [snd heap].
    by eapply lookup_weaken.
  - by rewrite eval_attr_logic_run_unbound.
Qed.


(** X3: the result of a call depends on the store through the attributes
    that the expression names and on nothing else: two calls in any two
    stores, on mappings that give the same value to each name of the
    expression (a missing name counting as [None]), return the same
    result. *)
Theorem decision_depends_on_named_attributes expression a1 st1 d1 a2 st2 d2 :
  heap st1 !! a1 = Some d1 → heap st2 !! a2 = Some d2 →
  (∀ body id,
     ast_parse expression = Return (ast.Expression body) →
     id ∈ names_of body →
     default VNone (d1 !! id) = default VNone (d2 !! id)) →
  (eval_attr_logic ast_parse expression a1 st1).1
  = (eval_attr_logic ast_parse expression a2 st2).1.
Proof.
  intros H1 H2 Hagree.
  rewrite (eval_attr_logic_result _ _ _ d1 H1),
    (eval_attr_logic_result _ _ _ d2 H2).
  assert (Hpv : policy_value ast_parse expression d1
                = policy_value ast_parse expression d2); [|by rewrite Hpv].
  unfold policy_value.
  destruct (ast_parse expression) as [[body]|e0]; [|done].
  rewrite !bind_Return. destruct (validate (ast.Expression body)); [|done].
  rewrite !bind_Return. cbn [compile].
  destruct (compile_expr body) as [[]|] eqn:Hc; [|done].
  rewrite !bind_Return, !(eval_expr_optimize _ _ Hc).
  apply eval_expr_ext_on. intros id Hid. unfold folded.
  destruct (String.eqb _ _); [done|]. rewrite !load_name_SafeAttrs.
  f_equal. by apply (Hagree body).
Qed.

(** X4: calls do not interfere: the result of a call on a dict is the same
    after any other call of [eval_attr_logic] as before it. *)
Theorem calls_do_not_interfere e1 a1 e2 a2 st d2 :
  heap st !! a2 = Some d2 →
  (eval_attr_logic ast_parse e2 a2
     (eval_attr_logic ast_parse e1 a1 st).2).1
  = (eval_attr_logic ast_parse e2 a2 st).1.
Proof.
  intros H2.
  rewrite (eval_attr_logic_result e2 a2 st d2 H2).
  apply eval_attr_logic_result. by apply eval_attr_logic_keeps.
Qed.

End Decision.

(** ** What the visitor writes to its working copy *)

Lemma bind_defaults_app l1 l2 d :
  bind_defaults (l1 ++ l2) d = bind_defaults l2 (bind_defaults l1 d).
Proof. unfold bind_defaults. by rewrite foldl_app. Qed.

Lemma lookup_bind_default d id k :
  bind_default d id !! k
  = match d !! k with
    | Some v => Some v
    | None => if bool_decide (k = id) then Some VNone else None
    end.
Proof.
  unfold bind_default. destruct (bool_decide (is_Some (d !! id))) eqn:Hid.
  - apply bool_decide_eq_true in Hid as [v Hv].
    destruct (d !! k) eqn:Hk; [done|]. case_bool_decide; [congruence | done].
  - apply bool_decide_eq_false in Hid.
    destruct (decide (k = id)) as [->|Hne].
    + rewrite lookup_insert_eq, bool_decide_eq_true_2 by done.
      destruct (d !! id) eqn:Hk; [by destruct Hid | done].
    + rewrite lookup_insert_ne, bool_decide_eq_false_2 by done.
      by destruct (d !! k).
Qed.

Lemma lookup_bind_defaults ids d k :
  bind_defaults ids d !! k
  = match d !! k with
    | Some v => Some v
    | None => if bool_decide (k ∈ ids) then Some VNone else None
    end.
Proof.
  revert d. induction ids as [|id ids IH]; intros d.
  - simpl. by destruct (d !! k).
  - change (bind_defaults (id :: ids) d)
      with (bind_defaults ids (bind_default d id)).
    rewrite IH, lookup_bind_default. destruct (d !! k); [done|].
    destruct (decide (k = id)) as [->|Hne].
    + rewrite bool_decide_eq_true_2 by done.
      by rewrite bool_decide_eq_true_2 by (apply elem_of_cons; by left).
    + rewrite (bool_decide_eq_false_2 (k = id)) by done.
      rewrite (bool_decide_ext (k ∈ id :: ids) (k ∈ ids)); [done|].
      rewrite elem_of_cons. tauto.
Qed.

Section Tracks.

Variable names : ref.

Lemma tracks_ret {A} (a : A) : tracks names (mret a) [].
Proof.
  intros st d Hd. exists []. split; [done|]. split; [|done].
  by apply state_insert_id.
Qed.

Lemma tracks_check n : tracks names (SafeEvalVisitor.check n) [].
Proof.
  intros st d Hd. exists []. split; [done|]. split; [|done].
  unfold SafeEvalVisitor.check.
  destruct (negb _); by apply state_insert_id.
Qed.

Lemma tracks_bind {A B} (m : M A) (k : A → M B) l1 l2 :
  tracks names m l1 → (∀ a, tracks names (k a) l2) →
  tracks names (m ≫= k) (l1 ++ l2).
Proof.
  intros Hm Hk st d Hd. destruct (Hm st d Hd) as (ids1 & Hpre & Hst & Hret).
  unfold mbind, M_bind.
  destruct (m st) as [[a|e] st1]; simpl in *; subst st1.
  - rewrite (Hret a eq_refl) in *.
    destruct (Hk a (mkState (<[names := bind_defaults l1 d]> (heap st))
                      (owl_log st)) (bind_defaults l1 d))
      as (ids2 & Hpre2 & Hst2 & Hret2); [by simpl; rewrite lookup_insert_eq|].
    exists (l1 ++ ids2). split; [by apply prefix_app|].
    split; [|intros b Hb; by rewrite (Hret2 b Hb)].
    rewrite Hst2. simpl. by rewrite insert_insert_eq, bind_defaults_app.
  - exists ids1. split; [by apply prefix_app_r|]. by split.
Qed.

Lemma tracks_skip {A B} (m : M A) (k : A → M B) l :
  tracks names m [] → (∀ a, tracks names (k a) l) → tracks names (m ≫= k) l.
Proof. apply (tracks_bind m k [] l). Qed.

Lemma tracks_last {A B} (m : M A) (k : A → M B) l :
  tracks names m l → (∀ a, tracks names (k a) []) → tracks names (m ≫= k) l.
Proof. intros Hm Hk. rewrite <- (app_nil_r l). by apply tracks_bind. Qed.

Lemma tracks_visit_Name id :
  tracks names (SafeEvalVisitor.visit_Name names id) [id].
Proof.
  intros st d Hd. exists [id]. split; [done|]. split; [|done].
  unfold SafeEvalVisitor.visit_Name, read_dict, store_item, mbind, M_bind.
  rewrite Hd. unfold bind_defaults. simpl. unfold bind_default.
  destruct (bool_decide (is_Some (d !! id))); simpl.
  - by apply state_insert_id.
  - by rewrite Hd.
Qed.

Lemma tracks_ops ops :
  tracks names (mapM (λ op, SafeEvalVisitor.check (ast.cmpop_name op)) ops) [].
Proof.
  induction ops as [|op ops IH]; simpl; [apply tracks_ret|].
  apply tracks_skip; [apply tracks_check|]. intros y.
  apply tracks_skip; [exact IH|]. intros ?. apply tracks_ret.
Qed.

Lemma tracks_visit_each (visit : ast.expr → M unit) l :
  Forall (λ e, tracks names (visit e) (names_of e)) l →
  tracks names (SafeEvalVisitor.visit_each visit l) (concat (map names_of l)).
Proof.
  induction 1 as [|e l He _ IH]; simpl; [apply tracks_ret|].
  apply tracks_bind; [exact He | intros _; exact IH].
Qed.

Lemma tracks_visit_keys (visit : ast.expr → M unit) items :
  Forall (λ kv : option ast.expr * ast.expr,
            from_option (λ e, tracks names (visit e) (names_of e)) True kv.1)
    items →
  tracks names (SafeEvalVisitor.visit_keys visit items)
    (concat (map (λ kv, from_option names_of [] kv.1) items)).
Proof.
  induction 1 as [|[[k|] v] items Hk _ IH]; simpl in *;
    [apply tracks_ret | | exact IH].
  apply tracks_bind; [exact Hk | intros _; exact IH].
Qed.

Lemma tracks_visit_values (visit : ast.expr → M unit) items :
  Forall (λ kv : option ast.expr * ast.expr,
            tracks names (visit kv.2) (names_of kv.2)) items →
  tracks names (SafeEvalVisitor.visit_values visit items)
    (concat (map (λ kv, names_of kv.2) items)).
Proof.
  induction 1 as [|[k v] items Hv _ IH]; simpl in *; [apply tracks_ret|].
  apply tracks_bind; [exact Hv | intros _; exact IH].
Qed.

Lemma visit_tracks e :
  tracks names (SafeEvalVisitor.visit names e) (names_of e).
Proof.
  induction e as [op values IH|l op r IHl IHr|op e IH|items IH
                 |l ops cs IHl IHcs|c|v s ctx IHv IHs|id ctx|elts ctx IH
                 |elts ctx IH|k children IH] using expr_ind_nested;
    cbn [SafeEvalVisitor.visit names_of];
    unfold SafeEvalVisitor.generic_visit; cbn [ast.expr_name];
    try (apply tracks_skip; [apply tracks_check|]; intros _).
  - apply tracks_skip; [apply tracks_check|]. intros _.
    by apply tracks_visit_each.
  - apply tracks_bind; [exact IHl|]. intros _.
    apply tracks_skip; [apply tracks_check|]. intros _. exact IHr.
  - apply tracks_skip; [apply tracks_check|]. intros _. exact IH.
  - apply tracks_bind.
    + apply tracks_visit_keys. eapply Forall_impl; [exact IH|].
      intros [[k|] v] [Hk _]; simpl in *; done.
    + intros _. apply tracks_visit_values.
      eapply Forall_impl; [exact IH|]. by intros [k v] [_ Hv].
  - apply tracks_bind; [exact IHl|]. intros _.
    apply tracks_skip; [apply tracks_ops|]. intros _.
    by apply tracks_visit_each.
  - apply tracks_ret.
  - apply tracks_bind; [exact IHv|]. intros _.
    apply tracks_last; [exact IHs|]. intros _. apply tracks_check.
  - apply tracks_visit_Name.
  - apply tracks_last; [by apply tracks_visit_each|]. intros _.
    apply tracks_check.
  - apply tracks_last; [by apply tracks_visit_each|]. intros _.
    apply tracks_check.
  - by apply tracks_visit_each.
Qed.

End Tracks.

(** X5: the visitor changes its working copy by adding bindings to [None]
    and in no other way: every item that was there stays as it was, a key
    is added only if it is a name of the expression, and a key that is
    added is bound to [None].  When the visitor returns normally, every
    name of the expression is bound in the copy. *)
Theorem visitor_binds_missing_names names body st d :
  heap st !! names = Some d →
  ∃ d',
    (SafeEvalVisitor.visit_tree names (ast.Expression body) st).2
    = mkState (<[names := d']> (heap st)) (owl_log st)
    ∧ (∀ k v, d !! k = Some v → d' !! k = Some v)
    ∧ (∀ k, d !! k = None →
         d' !! k = None ∨ (d' !! k = Some VNone ∧ k ∈ names_of body))
    ∧ ((SafeEvalVisitor.visit_tree names (ast.Expression body) st).1
       = Return () →
       ∀ k, k ∈ names_of body → is_Some (d' !! k)).
Proof.
  intros Hd.
  assert (Htree : tracks names
            (SafeEvalVisitor.visit_tree names (ast.Expression body))
            (names_of body)).
  { unfold SafeEvalVisitor.visit_tree.
    apply tracks_skip; [apply tracks_check|]. intros _. apply visit_tracks. }
  destruct (Htree st d Hd) as (ids & Hpre & Hst & Hret).
  exists (bind_defaults ids d). split; [done|]. split; [|split].
  - intros k v Hk. by rewrite lookup_bind_defaults, Hk.
  - intros k Hk. rewrite lookup_bind_defaults, Hk.
    case_bool_decide as Hin; [|by left]. right. split; [done|].
    destruct Hpre as [post ->]. rewrite elem_of_app. by left.
  - intros Hr k Hk. rewrite (Hret () Hr), lookup_bind_defaults.
    destruct (d !! k); [done|]. by rewrite bool_decide_eq_true_2.
Qed.

(** X6: when the visitor raises a [ValueError], the class that the
    message names is the first one, in the order of the traversal, that is
    off the allow-list: every class checked before it is on the list. *)
Theorem visitor_reports_first_offender names body st d msg :
  heap st !! names = Some d →
  (SafeEvalVisitor.visit_tree names (ast.Expression body) st).1
  = Raise (ValueError msg) →
  ∃ before m after,
    visited body = before ++ m :: after
    ∧ all_allowed before
    ∧ (m ∉ SafeEvalVisitor.ALLOWED_NODES)
    ∧ msg = "Disallowed expression: " +:+ m.
Proof.
  intros Hd Hr.
  pose proof (visit_tree_validate names (ast.Expression body) st d Hd) as Hv.
  rewrite Hr, validate_Expression in Hv. simpl in Hv. symmetry in Hv.
  clear Hr. induction (visited body) as [|n l IH]; [done|].
  simpl in Hv. destruct (SafeEvalVisitor.allowed n) eqn:Hn.
  - destruct (IH Hv) as (before & m & after & -> & ? & ? & ?).
    exists (n :: before), m, after. repeat split; [by constructor|done..].
  - injection Hv as <-. exists [], n, l. repeat split; [done|].
    intros ?%allowed_elem_of. congruence.
Qed.

(** ** Connectives *)

(** X7: when all the operands of [and] evaluate, the truthiness of the
    result is the conjunction of theirs; for [or] it is the disjunction;
    and [not] negates the truthiness of its operand. *)
Theorem connectives_follow_truth_tables lookup values vs :
  eval_each (eval_expr lookup) values = Return vs → values ≠ [] →
  (∃ v, eval_expr lookup (ast.BoolOp ast.And values) = Return v
        ∧ truthy v = forallb truthy vs)
  ∧ (∃ v, eval_expr lookup (ast.BoolOp ast.Or values) = Return v
          ∧ truthy v = existsb truthy vs)
  ∧ (∀ operand w, eval_expr lookup operand = Return w →
       eval_expr lookup (ast.UnaryOp ast.Not operand)
       = Return (VBool (negb (truthy w)))).
Proof.
  intros Hvs Hne. cbn [eval_expr]. split; [|split].
  - revert vs Hvs. induction values as [|e l IH]; intros vs Hvs; [done|].
    simpl in Hvs. destruct (eval_expr lookup e) as [v|] eqn:He; [|done].
    rewrite bind_Return in Hvs.
    destruct (eval_each (eval_expr lookup) l) as [ws|] eqn:Hl; [|done].
    injection Hvs as <-. simpl. rewrite He.
    destruct l as [|e' l].
    + injection Hl as <-. exists v. simpl. by rewrite andb_true_r.
    + rewrite bind_Return. unfold decides.
      destruct (truthy v) eqn:Hv; simpl; [|by exists v].
      by apply IH.
  - revert vs Hvs. induction values as [|e l IH]; intros vs Hvs; [done|].
    simpl in Hvs. destruct (eval_expr lookup e) as [v|] eqn:He; [|done].
    rewrite bind_Return in Hvs.
    destruct (eval_each (eval_expr lookup) l) as [ws|] eqn:Hl; [|done].
    injection Hvs as <-. simpl. rewrite He.
    destruct l as [|e' l].
    + injection Hl as <-. exists v. simpl. by rewrite orb_false_r.
    + rewrite bind_Return. unfold decides.
      destruct (truthy v) eqn:Hv; simpl; [by exists v|].
      by apply IH.
  - intros operand w Hw. by rewrite Hw.
Qed.

(** ** More on the attribute provider *)

Lemma rstrip_slash_app_slash s : rstrip_slash (s +:+ "/") = rstrip_slash s.
Proof.
  induction s as [|c s IH]; [done|].
  change (String c s +:+ "/") with (String c (s +:+ "/")).
  cbn [rstrip_slash]. by rewrite IH.
Qed.

Lemma truthy_app_slash s : truthy (VStr (s +:+ "/")) = true.
Proof. by destruct s. Qed.

Section ProviderMore.

Variable getenv : string → option string.
Variable quote : string → string.

(** X8: the fetch consults the HTTP client at one request only, the GET of
    [<base>/account/<quoted email>/ctfd-data] with the two headers, and at
    none when the configuration is missing: two clients that answer this
    request alike give the same outcome. *)
Theorem fetch_request_footprint rg1 rg2 email :
  (∀ base_url token,
     getenv "LMS_BASE_URL" = Some base_url →
     getenv "LMS_CTFD_TOKEN" = Some token →
     base_url ≠ EmptyString → token ≠ EmptyString →
     rg1 (lms_url quote base_url email) (lms_headers token)
     = rg2 (lms_url quote base_url email) (lms_headers token)) →
  get_lms_ctfd_data_for_email getenv quote rg1 email
  = get_lms_ctfd_data_for_email getenv quote rg2 email.
Proof.
  intros Hsame. unfold get_lms_ctfd_data_for_email.
  destruct (getenv "LMS_BASE_URL") as [base_url|]; [|done].
  destruct (getenv "LMS_CTFD_TOKEN") as [token|]; [|done].
  destruct (negb (truthy (VStr base_url)) || negb (truthy (VStr token)))
    eqn:Hcfg; [done|].
  apply orb_false_iff in Hcfg as [Hb Ht]. simpl in Hb, Ht.
  rewrite negb_involutive in Hb, Ht.
  apply String.eqb_neq in Hb, Ht.
  fold (lms_url quote base_url email) (lms_headers token).
  by rewrite (Hsame base_url token).
Qed.

Variable requests_get :
  string → list (string * string) → result requests.Response.

(** X9: whatever the fetch returns is a dict of exactly two items,
    [attributes] bound to a dict and [active_attempt_task_ids] bound to a
    list, and it comes from a response of status 200 whose body is a JSON
    object, obtained with a configured base URL and token. *)
Theorem fetch_Return_shape email v :
  get_lms_ctfd_data_for_email getenv quote requests_get email = Return v →
  ∃ base_url token resp items attr task_ids,
    getenv "LMS_BASE_URL" = Some base_url
    ∧ getenv "LMS_CTFD_TOKEN" = Some token
    ∧ requests_get (lms_url quote base_url email) (lms_headers token)
      = Return resp
    ∧ requests.status_code resp = 200
    ∧ requests.json resp = Return (VDict items)
    ∧ v = VDict [(VStr "attributes", VDict attr);
                 (VStr "active_attempt_task_ids", VList task_ids)].
Proof.
  unfold get_lms_ctfd_data_for_email.
  destruct (getenv "LMS_BASE_URL") as [base_url|]; [|done].
  destruct (getenv "LMS_CTFD_TOKEN") as [token|]; [|done].
  destruct (negb (truthy (VStr base_url)) || negb (truthy (VStr token)));
    [done|].
  fold (lms_url quote base_url email) (lms_headers token).
  destruct (requests_get _ _) as [resp|e] eqn:Hget; [|by destruct e].
  destruct (negb (requests.status_code resp =? 200)) eqn:Hst; [done|].
  apply negb_false_iff, Z.eqb_eq in Hst.
  destruct (requests.json resp) as [data|e] eqn:Hjson; [|done].
  destruct data as [| | | | | |items]; try done.
  rewrite !data_get_dict. simpl. rewrite !py_or_normalized.
  destruct (normalized (json_field items "attributes") (VDict []))
    as [| | | | | |attr]; try done.
  destruct (normalized (json_field items "active_attempt_task_ids") (VList []))
    as [| | | |task_ids| |]; try done.
  intros [= <-]. by exists base_url, token, resp, items, attr, task_ids.
Qed.

(** X10: the fetch raises [LMSUnavailable], with two exceptions: an
    exception of the HTTP client that is not a [RequestException] passes
    through unchanged, and a body that is valid JSON but not an object
    raises [AttributeError]. *)
Theorem fetch_Raise_kinds email e :
  get_lms_ctfd_data_for_email getenv quote requests_get email = Raise e →
  (∃ msg, e = LMSUnavailable msg)
  ∨ (∃ base_url token,
       getenv "LMS_BASE_URL" = Some base_url
       ∧ getenv "LMS_CTFD_TOKEN" = Some token
       ∧ requests_get (lms_url quote base_url email) (lms_headers token)
         = Raise e
       ∧ ∀ msg, e ≠ RequestException msg)
  ∨ (e = AttributeError
     ∧ ∃ base_url token resp data,
         getenv "LMS_BASE_URL" = Some base_url
         ∧ getenv "LMS_CTFD_TOKEN" = Some token
         ∧ requests_get (lms_url quote base_url email) (lms_headers token)
           = Return resp
         ∧ requests.status_code resp = 200
         ∧ requests.json resp = Return data
         ∧ isinstance_dict data = false).
Proof.
  unfold get_lms_ctfd_data_for_email.
  destruct (getenv "LMS_BASE_URL") as [base_url|];
    [|intros [= <-]; left; by eexists].
  destruct (getenv "LMS_CTFD_TOKEN") as [token|];
    [|intros [= <-]; left; by eexists].
  destruct (negb (truthy (VStr base_url)) || negb (truthy (VStr token)));
    [intros [= <-]; left; by eexists|].
  fold (lms_url quote base_url email) (lms_headers token).
  destruct (requests_get _ _) as [resp|e0] eqn:Hget.
  - destruct (negb (requests.status_code resp =? 200)) eqn:Hst;
      [intros [= <-]; left; by eexists|].
    apply negb_false_iff, Z.eqb_eq in Hst.
    destruct (requests.json resp) as [data|e0] eqn:Hjson;
      [|intros [= <-]; left; by eexists].
    destruct data as [| | | | | |items];
      try (intros [= <-]; right; right; split; [done|];
           by eexists base_url, token, resp, _).
    rewrite !data_get_dict. simpl. rewrite !py_or_normalized.
    destruct (negb _ || negb _); [|done].
    intros [= <-]. left. by eexists.
  - destruct e0; intros [= <-];
      try (left; by eexists);
      right; left; exists base_url, token; by repeat split.
Qed.

End ProviderMore.

(** X11: trailing slashes of the configured base URL do not matter: with a
    slash appended to a non-empty base URL the fetch sends the same request
    and has the same outcome. *)
Theorem trailing_slash_ignored getenv1 getenv2 quote requests_get email base_url :
  getenv1 "LMS_BASE_URL" = Some base_url →
  getenv2 "LMS_BASE_URL" = Some (base_url +:+ "/") →
  base_url ≠ EmptyString →
  getenv1 "LMS_CTFD_TOKEN" = getenv2 "LMS_CTFD_TOKEN" →
  lms_url quote (base_url +:+ "/") email = lms_url quote base_url email
  ∧ get_lms_ctfd_data_for_email getenv1 quote requests_get email
    = get_lms_ctfd_data_for_email getenv2 quote requests_get email.
Proof.
  intros H1 H2 Hne Htoken.
  split; [unfold lms_url; by rewrite rstrip_slash_app_slash|].
  unfold get_lms_ctfd_data_for_email. rewrite H1, H2, Htoken.
  destruct (getenv2 "LMS_CTFD_TOKEN") as [token|]; [|done].
  rewrite rstrip_slash_app_slash, truthy_app_slash.
  assert (truthy (VStr base_url) = true) as ->; [|done].
  simpl. apply negb_true_iff. by apply String.eqb_neq.
Qed.

(** ** Names at run time *)

Section Names.

Variable ast_parse : string → result ast.mod_.

(** X12: a name other than [__debug__] that the attribute mapping does not
    bind evaluates as [None]: the compiled name has the value [None], which
    is false in a boolean context, so that its negation is [True] and its
    comparison with [None] is [True]; and every compiled expression
    evaluates as if the mapping bound the name to [None].  A call on an
    expression that is such a name returns [False], and logs nothing when
    [compile] takes the name. *)
Theorem missing_names_evaluate_as_None d id :
  d !! id = None → id ≠ "__debug__" →
  (∀ compiled,
     compile (ast.Expression (ast.Name id ast.Load)) = Return compiled →
     eval_expr (load_name eval_globals eval_builtins (SafeAttrs.__getitem__ d))
       compiled = Return VNone)
  ∧ truthy VNone = false
  ∧ (∀ compiled,
       compile (ast.Expression (ast.UnaryOp ast.Not (ast.Name id ast.Load)))
       = Return compiled →
       eval_expr (load_name eval_globals eval_builtins
                    (SafeAttrs.__getitem__ d)) compiled = Return (VBool true))
  ∧ (∀ compiled,
       compile (ast.Expression
                  (ast.Compare (ast.Name id ast.Load) [ast.Eq]
                     [ast.Constant ast.c_None])) = Return compiled →
       eval_expr (load_name eval_globals eval_builtins
                    (SafeAttrs.__getitem__ d)) compiled = Return (VBool true))
  ∧ (∀ body compiled,
       compile (ast.Expression body) = Return compiled →
       eval_expr (load_name eval_globals eval_builtins
                    (SafeAttrs.__getitem__ d)) compiled
       = eval_expr (load_name eval_globals eval_builtins
                      (SafeAttrs.__getitem__ (<[id := VNone]> d))) compiled)
  ∧ (∀ expression attributes st,
       blank expression = false →
       ast_parse expression = Return (ast.Expression (ast.Name id ast.Load)) →
       heap st !! attributes = Some d →
       (eval_attr_logic ast_parse expression attributes st).1 = Return false
       ∧ (∀ compiled,
            compile (ast.Expression (ast.Name id ast.Load)) = Return compiled →
            owl_log (eval_attr_logic ast_parse expression attributes st).2
            = owl_log st)).
Proof.
  intros Hmiss Hid.
  assert (Hopt : optimize (ast.Name id ast.Load) = ast.Name id ast.Load).
  { cbn [optimize]. apply String.eqb_neq in Hid. by rewrite Hid. }
  assert (Hname : ∀ compiled,
            compile (ast.Expression (ast.Name id ast.Load)) = Return compiled →
            compiled = ast.Name id ast.Load).
  { intros compiled (body & [= <-] & _ & ->)%compile_Return. exact Hopt. }
  split; [|split; [done|split; [|split; [|split]]]].
  - intros compiled ->%Hname. cbn [eval_expr].
    by rewrite load_name_SafeAttrs, Hmiss.
  - intros compiled (body & [= <-] & _ & ->)%compile_Return.
    change (optimize (ast.UnaryOp ast.Not (ast.Name id ast.Load)))
      with (ast.UnaryOp ast.Not (optimize (ast.Name id ast.Load))).
    rewrite Hopt. cbn [eval_expr].
    by rewrite load_name_SafeAttrs, Hmiss.
  - intros compiled (body & [= <-] & _ & ->)%compile_Return.
    change (optimize (ast.Compare (ast.Name id ast.Load) [ast.Eq]
                        [ast.Constant ast.c_None]))
      with (ast.Compare (optimize (ast.Name id ast.Load)) [ast.Eq]
              [ast.Constant ast.c_None]).
    rewrite Hopt. cbn [eval_expr].
    by rewrite load_name_SafeAttrs, Hmiss.
  - intros body compiled (body' & [= <-] & Hc & ->)%compile_Return.
    rewrite !(eval_expr_optimize _ _ Hc). apply eval_expr_ext. intros id'.
    unfold folded. destruct (String.eqb id' _); [done|].
    rewrite !load_name_SafeAttrs. destruct (decide (id = id')) as [<-|Hne].
    + by rewrite Hmiss, lookup_insert_eq.
    + by rewrite lookup_insert_ne.
  - intros expression attributes st Hb Hp Hd.
    destruct (eval_attr_logic_run ast_parse expression attributes st d Hb Hd)
      as (h' & -> & _). cbn [fst snd owl_log].
    destruct (compile (ast.Expression (ast.Name id ast.Load)))
      as [compiled|e] eqn:Hc.
    + rewrite (policy_value_eval ast_parse _ d _ compiled Hp eq_refl Hc).
      rewrite (Hname _ eq_refl). cbn [eval_expr].
      rewrite load_name_SafeAttrs, Hmiss. simpl.
      split; [done|]. intros _ _. by rewrite app_nil_r.
    + destruct (policy_value_compile_Raise ast_parse _ d _ _ Hp Hc)
        as [e' ->]. split; [done|]. by intros compiled [=].
Qed.

(** X13: when the compiled expression runs, a name resolves through the
    attribute mapping alone, with [None] for a missing key: the expression
    evaluates as the parsed tree does with every name but [__debug__],
    which [compile] has replaced, read from the mapping, and the outcome is
    the same whatever the globals and the builtins table hold.  In
    particular [eval_attr_logic("len", d)] is [False] for every mapping [d]
    without the key [len], such as the empty one. *)
Theorem names_resolve_through_attributes :
  (∀ globals builtins d id,
     load_name globals builtins (SafeAttrs.__getitem__ d) id
     = Return (default VNone (d !! id)))
  ∧ (∀ globals builtins d id compiled,
       id ≠ "__debug__" →
       compile (ast.Expression (ast.Name id ast.Load)) = Return compiled →
       eval_expr (load_name globals builtins (SafeAttrs.__getitem__ d)) compiled
       = Return (default VNone (d !! id)))
  ∧ (∀ globals builtins d body compiled,
       compile (ast.Expression body) = Return compiled →
       eval_expr (load_name globals builtins (SafeAttrs.__getitem__ d)) compiled
       = eval_expr (folded (λ id, Return (default VNone (d !! id)))) body)
  ∧ eval_builtins = ∅
  ∧ (∀ attributes st d,
       ast_parse "len" = Return (ast.Expression (ast.Name "len" ast.Load)) →
       heap st !! attributes = Some d → d !! "len" = None →
       (eval_attr_logic ast_parse "len" attributes st).1 = Return false
       ∧ owl_log (eval_attr_logic ast_parse "len" attributes st).2
         = owl_log st).
Proof.
  split; [|split; [|split; [|split; [done|]]]].
  - intros. apply load_name_SafeAttrs.
  - intros globals builtins d id compiled Hid
      (body & [= <-] & _ & ->)%compile_Return.
    cbn [optimize]. apply String.eqb_neq in Hid. rewrite Hid.
    apply load_name_SafeAttrs.
  - intros globals builtins d body compiled
      (body' & [= <-] & Hc & ->)%compile_Return.
    rewrite (eval_expr_optimize _ _ Hc). apply eval_expr_ext. intros id.
    unfold folded. destruct (String.eqb id _); [done|].
    apply load_name_SafeAttrs.
  - intros attributes st d Hp Hd Hmiss.
    destruct (eval_attr_logic_run ast_parse "len" attributes st d
                eq_refl Hd) as (h' & -> & _). cbn [fst snd owl_log].
    rewrite (policy_value_eval ast_parse _ d _ (ast.Name "len" ast.Load) Hp)
      by done.
    cbn [eval_expr]. rewrite load_name_SafeAttrs, Hmiss. simpl.
    by rewrite app_nil_r.
Qed.

End Names.

(** ** Instances of the further properties *)


Lemma decision_depends_on_named_attributes_witness :
  (eval_attr_logic example_parse ("role == " +:+ quoted "pro") caller
     (example_state {[ "role" := VStr "pro"; "level" := VInt 1 ]})).1
  = (eval_attr_logic example_parse ("role == " +:+ quoted "pro") caller
       (example_state {[ "role" := VStr "pro" ]})).1.
Proof.
  apply (decision_depends_on_named_attributes example_parse
           ("role == " +:+ quoted "pro")
           caller (example_state {[ "role" := VStr "pro"; "level" := VInt 1 ]})
           {[ "role" := VStr "pro"; "level" := VInt 1 ]}
           caller (example_state {[ "role" := VStr "pro" ]})
           {[ "role" := VStr "pro" ]}).
  - vm_compute; reflexivity.
  - vm_compute; reflexivity.
  - intros body id Hparse Hid. vm_compute in Hparse.
    injection Hparse as <-. cbn [names_of name concat map app] in Hid.
    apply list_elem_of_singleton in Hid as ->. vm_compute; reflexivity.
Defined.

Lemma calls_do_not_interfere_witness :
  (eval_attr_logic example_parse ("role == " +:+ quoted "pro") caller
     (eval_attr_logic example_parse "missing_key" caller
        (example_state {[ "role" := VStr "pro" ]})).2).1
  = (eval_attr_logic example_parse ("role == " +:+ quoted "pro") caller
       (example_state {[ "role" := VStr "pro" ]})).1.
Proof.
  apply (calls_do_not_interfere example_parse "missing_key" caller
           ("role == " +:+ quoted "pro") caller
           (example_state {[ "role" := VStr "pro" ]})
           {[ "role" := VStr "pro" ]}).
  vm_compute; reflexivity.
Defined.

Lemma visitor_binds_missing_names_witness :
  ∃ d',
    (SafeEvalVisitor.visit_tree caller
       (ast.Expression (ast.Compare (name "level") [ast.GtE] [name "floor"]))
       (example_state {[ "level" := VInt 3 ]})).2
    = mkState (<[caller := d']> (heap (example_state {[ "level" := VInt 3 ]})))
        (owl_log (example_state {[ "level" := VInt 3 ]}))
    ∧ (∀ k v, ({[ "level" := VInt 3 ]} : gmap string value) !! k = Some v →
              d' !! k = Some v)
    ∧ (∀ k, ({[ "level" := VInt 3 ]} : gmap string value) !! k = None →
         d' !! k = None
         ∨ (d' !! k = Some VNone
            ∧ k ∈ names_of (ast.Compare (name "level") [ast.GtE]
                              [name "floor"])))
    ∧ ((SafeEvalVisitor.visit_tree caller
          (ast.Expression
             (ast.Compare (name "level") [ast.GtE] [name "floor"]))
          (example_state {[ "level" := VInt 3 ]})).1 = Return () →
       ∀ k, k ∈ names_of (ast.Compare (name "level") [ast.GtE] [name "floor"]) →
            is_Some (d' !! k)).
Proof.
  apply (visitor_binds_missing_names caller
           (ast.Compare (name "level") [ast.GtE] [name "floor"])
           (example_state {[ "level" := VInt 3 ]}) {[ "level" := VInt 3 ]}).
  vm_compute; reflexivity.
Defined.

Lemma visitor_reports_first_offender_witness :
  ∃ before m after,
    visited (ast.BinOp (int_lit 1) ast.Add (int_lit 2)) = before ++ m :: after
    ∧ all_allowed before
    ∧ (m ∉ SafeEvalVisitor.ALLOWED_NODES)
    ∧ "Disallowed expression: Add" = "Disallowed expression: " +:+ m.
Proof.
  apply (visitor_reports_first_offender caller
           (ast.BinOp (int_lit 1) ast.Add (int_lit 2))
           (example_state ∅) ∅); vm_compute; reflexivity.
Defined.

Lemma connectives_follow_truth_tables_witness :
  ∃ v, eval_expr (λ _, Return VNone)
         (ast.BoolOp ast.And [int_lit 1; str_lit "x"; int_lit 0]) = Return v
       ∧ truthy v = forallb truthy [VInt 1; VStr "x"; VInt 0].
Proof.
  apply (proj1 (connectives_follow_truth_tables (λ _, Return VNone)
                  [int_lit 1; str_lit "x"; int_lit 0]
                  [VInt 1; VStr "x"; VInt 0] eq_refl
                  ltac:(discriminate))).
Defined.

Lemma fetch_request_footprint_witness :
  get_lms_ctfd_data_for_email example_getenv id
    (example_requests_get 200 (Return (VDict []))) "user@example.org"
  = get_lms_ctfd_data_for_email example_getenv id
      (λ url headers,
         if decide (url = "https://lms.example/account/user@example.org/ctfd-data")
         then Return (requests.mkResponse 200 (Return (VDict [])))
         else Raise (RequestException "unexpected request"))
      "user@example.org".
Proof.
  apply (fetch_request_footprint example_getenv id).
  intros base_url token Hbase Htoken _ _.
  vm_compute in Hbase, Htoken. injection Hbase as <-. injection Htoken as <-.
  vm_compute; reflexivity.
Defined.

Lemma fetch_Return_shape_witness :
  ∃ base_url token resp items attr task_ids,
    example_getenv "LMS_BASE_URL" = Some base_url
    ∧ example_getenv "LMS_CTFD_TOKEN" = Some token
    ∧ example_requests_get 200
        (Return (VDict [(VStr "attributes", VDict [(VStr "role", VStr "pro")])]))
        (lms_url id base_url "user@example.org") (lms_headers token)
      = Return resp
    ∧ requests.status_code resp = 200
    ∧ requests.json resp = Return (VDict items)
    ∧ VDict [(VStr "attributes", VDict [(VStr "role", VStr "pro")]);
             (VStr "active_attempt_task_ids", VList [])]
      = VDict [(VStr "attributes", VDict attr);
               (VStr "active_attempt_task_ids", VList task_ids)].
Proof.
  apply (fetch_Return_shape example_getenv id
           (example_requests_get 200
              (Return (VDict [(VStr "attributes",
                               VDict [(VStr "role", VStr "pro")])])))
           "user@example.org").
  vm_compute; reflexivity.
Defined.

Lemma fetch_Raise_kinds_witness :
  (∃ msg, LMSUnavailable "LMS returned 503" = LMSUnavailable msg)
  ∨ (∃ base_url token,
       example_getenv "LMS_BASE_URL" = Some base_url
       ∧ example_getenv "LMS_CTFD_TOKEN" = Some token
       ∧ example_requests_get 503 (Return VNone)
           (lms_url id base_url "user@example.org") (lms_headers token)
         = Raise (LMSUnavailable "LMS returned 503")
       ∧ ∀ msg, LMSUnavailable "LMS returned 503" ≠ RequestException msg)
  ∨ (LMSUnavailable "LMS returned 503" = AttributeError
     ∧ ∃ base_url token resp data,
         example_getenv "LMS_BASE_URL" = Some base_url
         ∧ example_getenv "LMS_CTFD_TOKEN" = Some token
         ∧ example_requests_get 503 (Return VNone)
             (lms_url id base_url "user@example.org") (lms_headers token)
           = Return resp
         ∧ requests.status_code resp = 200
         ∧ requests.json resp = Return data
         ∧ isinstance_dict data = false).
Proof.
  apply (fetch_Raise_kinds example_getenv id
           (example_requests_get 503 (Return VNone)) "user@example.org").
  vm_compute; reflexivity.
Defined.

Lemma trailing_slash_ignored_witness :
  lms_url id ("https://lms.example" +:+ "/") "user@example.org"
  = lms_url id "https://lms.example" "user@example.org"
  ∧ get_lms_ctfd_data_for_email
      (λ n, if decide (n = "LMS_BASE_URL") then Some "https://lms.example"
            else example_getenv n)
      id (example_requests_get 200 (Return (VDict []))) "user@example.org"
    = get_lms_ctfd_data_for_email example_getenv id
        (example_requests_get 200 (Return (VDict []))) "user@example.org".
Proof.
  apply (trailing_slash_ignored
           (λ n, if decide (n = "LMS_BASE_URL") then Some "https://lms.example"
                 else example_getenv n)
           example_getenv id (example_requests_get 200 (Return (VDict [])))
           "user@example.org" "https://lms.example");
    [vm_compute; reflexivity | vm_compute; reflexivity | discriminate
    | vm_compute; reflexivity].
Defined.

Lemma missing_names_evaluate_as_None_witness :
  (eval_attr_logic example_parse "missing_key" caller (example_state ∅)).1
  = Return false.
Proof.
  refine (proj1 (proj2 (proj2 (proj2 (proj2 (proj2
                   (missing_names_evaluate_as_None
                      example_parse (∅ : gmap string value) "missing_key"
                      _ _)))))
                   "missing_key" caller (example_state ∅) _ _ _));
    [vm_compute; reflexivity | discriminate | vm_compute; reflexivity..].
Defined.

Lemma names_resolve_through_attributes_witness :
  (eval_attr_logic example_parse "len" caller (example_state ∅)).1
  = Return false
  ∧ owl_log (eval_attr_logic example_parse "len" caller (example_state ∅)).2
    = [].
Proof.
  apply (proj2 (proj2 (proj2 (proj2
                  (names_resolve_through_attributes example_parse))))
           caller (example_state ∅) ∅); vm_compute; reflexivity.
Defined.
